(** * parse-json: JSON.parse with more helpful errors

    A shallow embedding of [src/index.ts] and the properties of its
    diagnostic pipeline.

    - ECMAScript strings are sequences of UTF-16 code units: [jsstring].
    - ECMAScript numbers are IEEE 754 doubles; the module computes with
      integers, which are exact up to 2^53 and rounded to 53 significant
      bits beyond: [number].
    - The two regular expressions of the module are written as syntax trees
      and run by a backtracking matcher that follows the continuation
      semantics of the ECMAScript specification (greedy quantifiers,
      capture groups, backreferences, anchors, lookbehind).
    - The collaborators of the module ([JSON.parse], [indexToPosition] of
      [@smushytaco/index-to-position], [codeFrameColumns] of
      [@babel/code-frame]) are parameters of a section.
    - Functions that call a collaborator or can throw live in a small
      monad that records the calls made and carries a completion. *)

From Stdlib Require Import String Ascii Bool NArith ZArith Lia List.
From Stdlib Require Decimal DecimalString.
Import ListNotations.

Set Implicit Arguments.

(** ** ECMAScript strings *)

(** A UTF-16 code unit. *)
Definition char16 := N.

(** An ECMAScript string value. *)
Definition jsstring := list char16.

(** The string value of an ASCII source literal. *)
Definition lit (s : string) : jsstring :=
  map N_of_ascii (list_ascii_of_string s).

(** [string.length].  A string of ECMAScript has at most 2^53 - 1 code
    units, so its length is a number that holds it exactly. *)
Definition js_length (s : jsstring) : Z := Z.of_nat (length s).

(** ToBoolean on a string: the empty string is the only falsy one. *)
Definition truthy (s : jsstring) : bool :=
  match s with [] => false | _ :: _ => true end.

(** ToBoolean on [string | undefined]. *)
Definition truthy_opt (s : option jsstring) : bool :=
  match s with Some s => truthy s | None => false end.

(** [s] without the prefix [p], when it starts with it. *)
Fixpoint strip_prefix (p s : jsstring) : option jsstring :=
  match p with
  | [] => Some s
  | c :: p' =>
      match s with
      | c' :: s' => if N.eqb c' c then strip_prefix p' s' else None
      | [] => None
      end
  end.

(** ** Regular expressions

    The fragment of ECMAScript regular expressions the module uses, without
    flags: no [u], so an atom consumes one code unit; no [s], so [.] stops at
    line terminators; no [m], so [^] and [$] are the ends of the input; no
    [i]; no [g], so a search starts at index 0. *)
Module RegExp.

Inductive regex : Type :=
| REmpty                                  (* the empty pattern *)
| RChar (c : char16)                      (* a pattern character *)
| RSet (p : char16 -> bool)               (* a character class: \d, . *)
| RSeq (r1 r2 : regex)                    (* r1 r2 *)
| ROpt (r : regex)                        (* r?  (greedy) *)
| RPlusSet (p : char16 -> bool)           (* C+  (greedy) on a class C *)
| RGroup (n : nat) (r : regex)            (* the n-th capturing group *)
| RBackref (n : nat)                      (* \n, \k<name> *)
| RBol                                    (* ^ *)
| REol                                    (* $ *)
| RLookbehind (r : regex).                (* (?<=r) *)

(** The characters of a literal, in sequence. *)
Definition rlit (s : jsstring) : regex :=
  fold_right (fun c r => RSeq (RChar c) r) REmpty s.

(** [\d] *)
Definition is_digit (c : char16) : bool := (48 <=? c)%N && (c <=? 57)%N.

(** LineTerminator: LF, CR, LS, PS. *)
Definition is_line_terminator (c : char16) : bool :=
  (c =? 10)%N || (c =? 13)%N || (c =? 8232)%N || (c =? 8233)%N.

(** [.] without the [s] flag *)
Definition is_dot (c : char16) : bool := negb (is_line_terminator c).

(** A match state: the input split at the current end index (the part before
    it held backwards, nearest code unit first) and the captures, where
    capture [n] is at list index [n - 1] and [None] is [undefined]. *)
Record mstate : Type := MState {
  consumed : jsstring;
  remaining : jsstring;
  captures : list (option jsstring)
}.

Definition endIndex (x : mstate) : nat := length (consumed x).

Inductive direction : Type := Forward | Backward.

(** The input ahead of and behind the end index, in reading order of the
    direction. *)
Definition ahead (d : direction) (x : mstate) : jsstring :=
  match d with Forward => remaining x | Backward => consumed x end.

Definition behind (d : direction) (x : mstate) : jsstring :=
  match d with Forward => consumed x | Backward => remaining x end.

Definition mk (d : direction) (ah bh : jsstring)
    (caps : list (option jsstring)) : mstate :=
  match d with
  | Forward => MState bh ah caps
  | Backward => MState ah bh caps
  end.

Fixpoint set_nth {A : Type} (n : nat) (v : A) (l : list A) : list A :=
  match l, n with
  | [], _ => []
  | _ :: t, O => v :: t
  | h :: t, S n' => h :: set_nth n' v t
  end.

(** The capture of group [n]; [None] when it did not participate. *)
Definition capture (n : nat) (caps : list (option jsstring))
    : option jsstring :=
  match nth_error caps (pred n) with
  | Some c => c
  | None => None
  end.

(** The input between the end indices of [x] (where a group was entered) and
    [y] (where it was left). *)
Definition between (d : direction) (x y : mstate) : jsstring :=
  match d with
  | Forward => rev (firstn (endIndex y - endIndex x) (consumed y))
  | Backward => firstn (endIndex x - endIndex y) (remaining y)
  end.

(** Greedy [C+]: one code unit of the class, then as many more as the
    continuation allows, longest first. *)
Fixpoint repeat_set (p : char16 -> bool) (d : direction)
    (ah bh : jsstring) (caps : list (option jsstring))
    (k : mstate -> option mstate) : option mstate :=
  match ah with
  | [] => None
  | c :: ah' =>
      if p c then
        match repeat_set p d ah' (c :: bh) caps k with
        | Some z => Some z
        | None => k (mk d ah' (c :: bh) caps)
        end
      else None
  end.

(** The matcher of a pattern: [rmatch r d x k] runs [r] from state [x] in
    direction [d] and hands every end state, in priority order, to the
    continuation [k] until one succeeds.

    - A sequence is run left to right forwards and right to left backwards.
    - [r?] tries [r] first and refuses an empty iteration, then tries to go
      on without [r]; the captures of a refused attempt are dropped with its
      state.  (The groups inside [r] are not reset before the iteration: in
      the two patterns of the module they are still [undefined] there.)
    - A backreference to a group that did not take part matches the empty
      string.
    - A lookbehind runs its body backwards from the current end index, once,
      and keeps the end index. *)
Fixpoint rmatch (r : regex) (d : direction) (x : mstate)
    (k : mstate -> option mstate) : option mstate :=
  match r with
  | REmpty => k x
  | RChar c =>
      match ahead d x with
      | c' :: ah' =>
          if N.eqb c' c then k (mk d ah' (c' :: behind d x) (captures x))
          else None
      | [] => None
      end
  | RSet p =>
      match ahead d x with
      | c' :: ah' =>
          if p c' then k (mk d ah' (c' :: behind d x) (captures x))
          else None
      | [] => None
      end
  | RSeq r1 r2 =>
      match d with
      | Forward => rmatch r1 d x (fun y => rmatch r2 d y k)
      | Backward => rmatch r2 d x (fun y => rmatch r1 d y k)
      end
  | ROpt r1 =>
      match rmatch r1 d x
              (fun y => if Nat.eqb (endIndex y) (endIndex x) then None
                        else k y) with
      | Some z => Some z
      | None => k x
      end
  | RPlusSet p => repeat_set p d (ahead d x) (behind d x) (captures x) k
  | RGroup n r1 =>
      rmatch r1 d x
        (fun y => k (MState (consumed y) (remaining y)
                       (set_nth (pred n) (Some (between d x y))
                          (captures y))))
  | RBackref n =>
      match capture n (captures x) with
      | None => k x
      | Some s =>
          let want := match d with Forward => s | Backward => rev s end in
          match strip_prefix want (ahead d x) with
          | Some ah' => k (mk d ah' (rev want ++ behind d x) (captures x))
          | None => None
          end
      end
  | RBol => match consumed x with [] => k x | _ :: _ => None end
  | REol => match remaining x with [] => k x | _ :: _ => None end
  | RLookbehind r1 =>
      match rmatch r1 Backward x (fun y => Some y) with
      | Some y => k (MState (consumed x) (remaining x) (captures y))
      | None => None
      end
  end.

(** A compiled pattern: its tree, its number of capturing groups and the
    numbers of its named groups. *)
Record regexp : Type := RegExp {
  pattern : regex;
  ncaptures : nat;
  group_names : list (string * nat)
}.

(** A successful match: where it starts and where it ends. *)
Record match_result : Type := MatchResult {
  m_start : mstate;
  m_end : mstate
}.

(** The search loop of RegExpBuiltinExec: the first start index, from the
    left, at which the matcher succeeds. *)
Fixpoint exec_from (re : regexp) (b a : jsstring) : option match_result :=
  let x := MState b a (repeat None (ncaptures re)) in
  match rmatch (pattern re) Forward x (fun y => Some y) with
  | Some y => Some (MatchResult x y)
  | None =>
      match a with
      | [] => None
      | c :: a' => exec_from re (c :: b) a'
      end
  end.

(** [RegExp.prototype.exec] *)
Definition exec (re : regexp) (s : jsstring) : option match_result :=
  exec_from re [] s.

(** [match[0]], the matched substring. *)
Definition matched (m : match_result) : jsstring :=
  between Forward (m_start m) (m_end m).

(** [match[n]] *)
Definition group (m : match_result) (n : nat) : option jsstring :=
  capture n (captures (m_end m)).

(** [match.groups.name] *)
Definition named_group (re : regexp) (m : match_result) (name : string)
    : option jsstring :=
  match find (fun e => String.eqb (fst e) name) (group_names re) with
  | Some (_, n) => group m n
  | None => None
  end.

(** [String.prototype.replace] with a pattern without the [g] flag and a
    replacer function, which receives the match and the captures. *)
Definition replace (re : regexp)
    (replacer : jsstring -> list (option jsstring) -> jsstring)
    (s : jsstring) : jsstring :=
  match exec re s with
  | None => s
  | Some m =>
      rev (consumed (m_start m))
        ++ replacer (matched m) (captures (m_end m))
        ++ remaining (m_end m)
  end.

End RegExp.

Import RegExp.

(** ** Numbers *)

(** The ECMAScript numbers the module computes with: [NaN] (what [Number]
    makes of [undefined]), the two infinities, and the finite numbers whose
    value is an integer.  A number is an IEEE 754 double: it holds every
    integer up to 2^53 in magnitude and, beyond 2^53, the integers of 53
    significant bits only; [Int z] is a number when [z] is such an
    integer. *)
Inductive number : Type :=
| NaN
| Int (z : Z)
| Infinity
| NegInfinity.

(** 2^53: up to it, every integer is a number. *)
Definition two53 : Z := 9007199254740992.

(** The integer of at most 53 significant bits that is nearest to a
    non-negative integer; of two that are equally near, the one with the even
    mantissa. *)
Definition round_to_53_bits (n : Z) : Z :=
  if (n <=? two53)%Z then n
  else
    let e := (Z.log2 n - 52)%Z in
    let q := (n / 2 ^ e)%Z in
    let r := (n mod 2 ^ e)%Z in
    let half := (2 ^ (e - 1))%Z in
    let q' :=
      if (r <? half)%Z then q
      else if (half <? r)%Z then (q + 1)%Z
      else if Z.even q then q else (q + 1)%Z in
    (q' * 2 ^ e)%Z.

(** The number that an integer is rounded to, by a conversion or by an
    arithmetic operation of which it is the exact result.  The largest
    double is (2^53 - 1) * 2^971; what rounds to 2^1024 is out of range and
    becomes an infinity. *)
Definition to_double (z : Z) : number :=
  let v := round_to_53_bits (Z.abs z) in
  if (v <? 2 ^ 1024)%Z then Int (Z.sgn z * v)
  else if (z <? 0)%Z then NegInfinity else Infinity.

(** [a === b] on numbers: [NaN] equals nothing. *)
Definition strict_equal (a b : number) : bool :=
  match a, b with
  | Int x, Int y => Z.eqb x y
  | Infinity, Infinity => true
  | NegInfinity, NegInfinity => true
  | _, _ => false
  end.

(** [a + 1] *)
Definition add1 (a : number) : number :=
  match a with
  | Int x => to_double (x + 1)
  | NaN => NaN
  | Infinity => Infinity
  | NegInfinity => NegInfinity
  end.

(** The value of a run of decimal digits. *)
Definition decimal_value (s : jsstring) : Z :=
  fold_left (fun acc c => (10 * acc + (Z.of_N c - 48))%Z) s 0%Z.

(** [Number(v)] for [v : string | undefined], on the strings the module
    hands to it, which are captures of [\d+]: [undefined] is [NaN], the empty
    string is 0, a run of digits is the double nearest to its decimal value
    (V8 and the other engines round it correctly), [Infinity] from 2^1024 -
    2^970 on.  Other numeric literals (signs, exponents, hexadecimal, white
    space) never reach it and are not modelled: they are mapped to [NaN]
    here. *)
Definition Number (v : option jsstring) : number :=
  match v with
  | None => NaN
  | Some s => if forallb is_digit s then to_double (decimal_value s) else NaN
  end.

(** [Number.prototype.toString(16)] on a non-negative integer: lowercase
    digits, no padding. *)
Definition hex_digit (d : N) : char16 :=
  if (d <? 10)%N then (48 + d)%N else (87 + d)%N.

Fixpoint hex_digits (fuel : nat) (n : N) (acc : jsstring) : jsstring :=
  match fuel with
  | O => acc
  | S fuel' =>
      if (n <? 16)%N then hex_digit n :: acc
      else hex_digits fuel' (n / 16)%N (hex_digit (n mod 16)%N :: acc)
  end.

Definition toString16 (n : N) : jsstring :=
  hex_digits (S (N.size_nat n)) n [].

(** [String.prototype.codePointAt]: the code point that starts at index
    [pos], a surrogate pair counting as one; [None] is [undefined]. *)
Definition codePointAt (s : jsstring) (pos : nat) : option N :=
  match skipn pos s with
  | [] => None
  | first :: rest =>
      if ((first <? 55296) || (56319 <? first))%N then Some first
      else
        match rest with
        | [] => Some first
        | second :: _ =>
            if ((second <? 56320) || (57343 <? second))%N then Some first
            else Some ((first - 55296) * 1024 + (second - 56320) + 65536)%N
        end
  end.

(** ** The module *)

(** [getCodePoint]: the template [\\u{${...}}] *)
Definition getCodePoint (character : jsstring) : jsstring :=
  lit "\u{"
    ++ toString16 (match codePointAt character 0 with
                   | Some cp => cp
                   | None => 0%N
                   end)
    ++ lit "}".

(** [LineColumnPosition] of [@smushytaco/index-to-position] *)
Record LineColumnPosition : Type := {
  line : number;
  column : number
}.

(** The pattern of [getErrorLocation]:
    [/in JSON at position (?<index>\d+)(?: \(line (?<line>\d+) column (?<column>\d+)\))?$/] *)
Definition location_pattern : regex :=
  RSeq (rlit (lit "in JSON at position "))
    (RSeq (RGroup 1 (RPlusSet is_digit))
       (RSeq (ROpt (RSeq (rlit (lit " (line "))
                      (RSeq (RGroup 2 (RPlusSet is_digit))
                         (RSeq (rlit (lit " column "))
                            (RSeq (RGroup 3 (RPlusSet is_digit))
                               (rlit (lit ")")))))))
          REol)).

Definition location_re : regexp :=
  RegExp location_pattern 3
    [("index"%string, 1); ("line"%string, 2); ("column"%string, 3)].

(** The pattern of [addCodePointToUnexpectedToken]:
    [/(?<=^Unexpected token )(?<quote>')?(.)\k<quote>/] *)
Definition unexpected_token_pattern : regex :=
  RSeq (RLookbehind (RSeq RBol (rlit (lit "Unexpected token "))))
    (RSeq (ROpt (RGroup 1 (RChar 39%N)))
       (RSeq (RGroup 2 (RSet is_dot))
          (RBackref 1))).

Definition unexpected_token_re : regexp :=
  RegExp unexpected_token_pattern 2 [("quote"%string, 1)].

(** The string value of a capture handed to a template or to a function
    declared on strings.  The one capture read this way, the token, takes
    part in every match (lemma [token_always_captured]). *)
Definition capture_string (c : option jsstring) : jsstring :=
  match c with
  | Some s => s
  | None => []
  end.

(** The replacer [(_, _quote, token) => `"${token}"(${getCodePoint(token)})`] *)
Definition token_replacer (_match : jsstring)
    (caps : list (option jsstring)) : jsstring :=
  let token := capture_string (capture 2 caps) in
  [34%N] ++ token ++ [34%N] ++ lit "(" ++ getCodePoint token ++ lit ")".

(** [addCodePointToUnexpectedToken] *)
Definition addCodePointToUnexpectedToken (message : jsstring) : jsstring :=
  replace unexpected_token_re token_replacer message.

(** [class JSONError extends Error]: [name], the public [fileName], the two
    read-only frames and the private base message [#message]. *)
Record JSONError : Type := mkJSONError {
  name : jsstring;
  fileName : option jsstring;
  codeFrame : option jsstring;
  rawCodeFrame : option jsstring;
  base_message : jsstring
}.

(** [get message()] *)
Definition get_message (this : JSONError) : jsstring :=
  let locationInfo :=
    match fileName this with
    | Some f => if truthy f then lit " in " ++ f else []
    | None => []
    end in
  let frameInfo :=
    match codeFrame this with
    | Some c => if truthy c then [10%N; 10%N] ++ c ++ [10%N] else []
    | None => []
    end in
  base_message this ++ locationInfo ++ frameInfo.

(** [set message(message)] *)
Definition set_message (this : JSONError) (message : jsstring) : JSONError :=
  mkJSONError (name this) (fileName this) (codeFrame this)
    (rawCodeFrame this) message.

(** The assignment [this.fileName = fileName] to the public field. *)
Definition set_fileName (this : JSONError) (f : option jsstring)
    : JSONError :=
  mkJSONError (name this) f (codeFrame this) (rawCodeFrame this)
    (base_message this).

(** What typed client code can do with a [JSONError] it holds: the frames are
    [readonly], so it can read and write [message] and write [fileName]. *)
Inductive operation : Type :=
| ReadMessage
| WriteMessage (message : jsstring)
| WriteFileName (f : option jsstring).

(** One operation: the object afterwards and the value read, if any. *)
Definition perform (this : JSONError) (op : operation)
    : JSONError * option jsstring :=
  match op with
  | ReadMessage => (this, Some (get_message this))
  | WriteMessage m => (set_message this m, None)
  | WriteFileName f => (set_fileName this f, None)
  end.

(** A sequence of operations: the final object and the values read, in
    order. *)
Fixpoint perform_all (this : JSONError) (ops : list operation)
    : JSONError * list jsstring :=
  match ops with
  | [] => (this, [])
  | op :: ops' =>
      let (this', r) := perform this op in
      let (final, reads) := perform_all this' ops' in
      (final, match r with Some v => v :: reads | None => reads end)
  end.

(** ** Completions and the call record *)

(** How an evaluation ends: normally with a value, or abruptly with a thrown
    one. *)
Inductive completion (E A : Type) : Type :=
| Normal (a : A)
| Throw (e : E).

Arguments Normal {E A} a.
Arguments Throw {E A} e.

(** A computation: the calls it made, in order, and its completion. *)
Definition M (Ev E A : Type) : Type := (list Ev * completion E A)%type.

Definition ret {Ev E A : Type} (a : A) : M Ev E A := ([], Normal a).

Definition throw {Ev E A : Type} (e : E) : M Ev E A := ([], Throw e).

Definition record {Ev E : Type} (ev : Ev) : M Ev E unit := ([ev], Normal tt).

Definition bind {Ev E A B : Type} (m : M Ev E A) (f : A -> M Ev E B)
    : M Ev E B :=
  match m with
  | (l, Normal a) => let (l', c) := f a in (l ++ l', c)
  | (l, Throw e) => (l, Throw e)
  end.

(** [try { m } catch (error) { h error }] *)
Definition try_catch {Ev E A : Type} (m : M Ev E A) (h : E -> M Ev E A)
    : M Ev E A :=
  match m with
  | (l, Normal a) => (l, Normal a)
  | (l, Throw e) => let (l', c) := h e in (l ++ l', c)
  end.

Declare Scope js_scope.
Delimit Scope js_scope with js.
Notation "x <- m ;; k" := (bind m (fun x => k))
  (at level 61, m at next level, right associativity) : js_scope.
Notation "m ;; k" := (bind m (fun _ => k))
  (at level 61, right associativity) : js_scope.

Local Open Scope js_scope.

Section ParseJson.

(** *** Collaborators *)

(** [JsonValue] of [type-fest]: what [JSON.parse] returns. *)
Variable JsonValue : Type.

(** The [reviver] functions, and one invocation of a reviver (its holder,
    key and value). *)
Variable Reviver : Type.
Variable ReviverCall : Type.

(** What a collaborator can throw: a value [e] with [e instanceof Error],
    which has a [message], or any other value. *)
Variable ErrorObject : Type.
Variable NonError : Type.
Variable error_message : ErrorObject -> jsstring.

Inductive foreign : Type :=
| ErrorValue (e : ErrorObject)
| OtherValue (v : NonError).

(** What the module can throw: a [JSONError] of its own, or what a
    collaborator threw. *)
Inductive thrown : Type :=
| JSONErrorValue (e : JSONError)
| ForeignValue (t : foreign).

(** [JSON.parse(text, reviver)]: the invocations of the reviver it makes and
    its completion. *)
Variable JSON_parse :
  jsstring -> option Reviver -> list ReviverCall * completion foreign JsonValue.

(** [indexToPosition(text, textIndex, {oneBased})] *)
Variable indexToPosition :
  jsstring -> number -> bool -> completion foreign LineColumnPosition.

(** [codeFrameColumns(rawLines, {start}, {highlightCode})] *)
Variable codeFrameColumns :
  jsstring -> LineColumnPosition -> bool -> jsstring.

(** The calls a computation records. *)
Inductive event : Type :=
| ReviverInvoked (c : ReviverCall)
| GetErrorLocationCalled (string message : jsstring)
| IndexToPositionCalled (text : jsstring) (textIndex : number)
| JSONErrorConstructed (message : jsstring) (jsonString : jsstring)
    (location : option LineColumnPosition).

Definition from_collaborator {A : Type} (c : completion foreign A)
    : completion thrown A :=
  match c with
  | Normal a => Normal a
  | Throw t => Throw (ForeignValue t)
  end.

Definition call_JSON_parse (text : jsstring) (reviver : option Reviver)
    : M event thrown JsonValue :=
  let (calls, c) := JSON_parse text reviver in
  (map ReviverInvoked calls, from_collaborator c).

Definition call_indexToPosition (text : jsstring) (textIndex : number)
    : M event thrown LineColumnPosition :=
  ([IndexToPositionCalled text textIndex],
   from_collaborator (indexToPosition text textIndex true)).

(** *** The module, continued *)

(** [generateCodeFrame] *)
Definition generateCodeFrame (string : jsstring)
    (location : LineColumnPosition) (highlightCode : bool) : jsstring :=
  codeFrameColumns string location highlightCode.

(** [new JSONError(message, jsonString, location)] *)
Definition new_JSONError (message : jsstring) (jsonString : option jsstring)
    (location : option LineColumnPosition) : JSONError :=
  match jsonString, location with
  | Some s, Some loc =>
      if truthy s then
        mkJSONError (lit "JSONError") None
          (Some (generateCodeFrame s loc true))
          (Some (generateCodeFrame s loc false))
          message
      else mkJSONError (lit "JSONError") None None None message
  | _, _ => mkJSONError (lit "JSONError") None None None message
  end.

(** [getErrorLocation].  [match?.groups] is defined exactly when the
    pattern matched, for the pattern has named groups; the inner [line] and
    [column] of the source, which shadow the groups, are the fields of
    [p]. *)
Definition getErrorLocation (string message : jsstring)
    : M event thrown (option LineColumnPosition) :=
  match exec location_re message with
  | None => ret None
  | Some m =>
      let index := named_group location_re m "index" in
      let line_ := named_group location_re m "line" in
      let column_ := named_group location_re m "column" in
      if truthy_opt line_ && truthy_opt column_ then
        ret (Some {| line := Number line_; column := Number column_ |})
      else
        let parsedIndex := Number index in
        if strict_equal parsedIndex (Int (js_length string)) then
          p <- call_indexToPosition string (Int (js_length string - 1)) ;;
          ret (Some {| line := p.(line); column := add1 p.(column) |})
        else
          p <- call_indexToPosition string parsedIndex ;;
          ret (Some p)
  end.

(** The result of the [try] statement of [parseJson]: either the function
    has returned, or it goes on with the raw message. *)
Inductive attempt : Type :=
| Returned (v : JsonValue)
| Failed (message : jsstring).

(** [parseJson].  The calls of [getErrorLocation] and of the [JSONError]
    constructor are entered in the call record where they are made. *)
Definition parseJson (string : jsstring) (reviver : option Reviver)
    (fileName : option jsstring) : M event thrown JsonValue :=
  a <- try_catch
         (v <- call_JSON_parse string reviver ;; ret (Returned v))
         (fun error =>
            match error with
            | JSONErrorValue e => ret (Failed (get_message e))
            | ForeignValue (ErrorValue e) => ret (Failed (error_message e))
            | ForeignValue (OtherValue _) => throw error
            end) ;;
  match a with
  | Returned v => ret v
  | Failed message =>
      lm <- (if truthy string then
               record (GetErrorLocationCalled string message) ;;
               location <- getErrorLocation string message ;;
               ret (location, addCodePointToUnexpectedToken message)
             else
               ret (None, message ++ lit " while parsing empty string")) ;;
      let (location, message) := lm : option LineColumnPosition * jsstring in
      record (JSONErrorConstructed message string location) ;;
      let jsonError := new_JSONError message (Some string) location in
      let jsonError := set_fileName jsonError fileName in
      throw (JSONErrorValue jsonError)
  end.

End ParseJson.

Arguments ErrorValue {ErrorObject NonError} e.
Arguments OtherValue {ErrorObject NonError} v.
Arguments JSONErrorValue {ErrorObject NonError} e.
Arguments ForeignValue {ErrorObject NonError} t.
Arguments ReviverInvoked {ReviverCall} c.
Arguments GetErrorLocationCalled {ReviverCall} string message.
Arguments IndexToPositionCalled {ReviverCall} text textIndex.
Arguments JSONErrorConstructed {ReviverCall} message jsonString location.
Arguments Returned {JsonValue} v.
Arguments Failed {JsonValue} message.
Arguments from_collaborator {ErrorObject NonError A} c.
Arguments call_JSON_parse {JsonValue Reviver ReviverCall ErrorObject NonError}
  JSON_parse text reviver.
Arguments call_indexToPosition {ReviverCall ErrorObject NonError}
  indexToPosition text textIndex.
Arguments getErrorLocation {ReviverCall ErrorObject NonError}
  indexToPosition string message.
Arguments parseJson {JsonValue Reviver ReviverCall ErrorObject NonError}
  error_message JSON_parse indexToPosition codeFrameColumns
  string reviver fileName.

(** ** Vocabulary of the statements

    The shapes of raw messages. *)

(** A non-empty run of decimal digits. *)
Definition digits (s : jsstring) : Prop :=
  s <> [] /\ forallb is_digit s = true.

(** The message carries an offset and no line or column: it ends with
    "in JSON at position <offset>". *)
Definition offset_shape (message offset : jsstring) : Prop :=
  digits offset /\
  exists pre, message = pre ++ lit "in JSON at position " ++ offset.

(** The message carries an offset, a line and a column: it ends with
    "in JSON at position <offset> (line <line> column <column>)". *)
Definition line_column_shape (message offset l c : jsstring) : Prop :=
  digits offset /\ digits l /\ digits c /\
  exists pre,
    message = pre ++ lit "in JSON at position " ++ offset
                ++ lit " (line " ++ l ++ lit " column " ++ c ++ lit ")".

(** The message has neither shape. *)
Definition no_location_shape (message : jsstring) : Prop :=
  (forall offset, ~ offset_shape message offset) /\
  (forall offset l c, ~ line_column_shape message offset l c).

(** Decimal numerals.  The digits of a message are read by the Standard
    Library, independently of the module: [s] is a numeral of [n] when it
    spells a non-empty [Decimal.uint], leading zeros allowed, whose value
    [N.of_uint] is [n]. *)
Definition numeral (s : jsstring) (n : N) : Prop :=
  exists d : Decimal.uint,
    d <> Decimal.Nil /\
    s = lit (DecimalString.NilEmpty.string_of_uint d) /\
    N.of_uint d = n.

(** The history of a [JSONError]. *)

(** The base message in force after a sequence of operations: the last one
    written, or the one the object had. *)
Fixpoint last_message (ops : list operation) (m : jsstring) : jsstring :=
  match ops with
  | [] => m
  | WriteMessage m' :: ops' => last_message ops' m'
  | _ :: ops' => last_message ops' m
  end.

(** The file name in force after a sequence of operations. *)
Fixpoint last_fileName (ops : list operation) (f : option jsstring)
    : option jsstring :=
  match ops with
  | [] => f
  | WriteFileName f' :: ops' => last_fileName ops' f'
  | _ :: ops' => last_fileName ops' f
  end.

(** [t] occurs in [s] ([String.prototype.includes]). *)
Fixpoint includes (s t : jsstring) : bool :=
  match strip_prefix t s with
  | Some _ => true
  | None =>
      match s with
      | [] => false
      | _ :: s' => includes s' t
      end
  end.

(** The value of a run of hexadecimal digits written with [0-9a-f]. *)
Definition hex_digit_value (c : char16) : option N :=
  if ((48 <=? c) && (c <=? 57))%N then Some (c - 48)%N
  else if ((97 <=? c) && (c <=? 102))%N then Some (c - 87)%N
  else None.

Fixpoint hex_value_from (acc : N) (s : jsstring) : option N :=
  match s with
  | [] => Some acc
  | c :: s' =>
      match hex_digit_value c with
      | Some d => hex_value_from (16 * acc + d)%N s'
      | None => None
      end
  end.

(** [h] is the lowercase hexadecimal numeral of [n] without padding: digits
    [0-9a-f] only, at least one, no leading zero except for zero itself. *)
Definition lowercase_unpadded_hex (h : jsstring) (n : N) : Prop :=
  h <> [] /\ hex_value_from 0 h = Some n /\
  (forall t, h = 48%N :: t -> t = []).

(** The token as the enhanced message renders it: the character in double
    quotes, then its code point in parentheses. *)
Definition rendered_token (X : char16) (h : jsstring) : jsstring :=
  [34%N; X; 34%N] ++ lit "(\u{" ++ h ++ lit "})".

(** ** Sample collaborators

    A small world to run the module in: an [Error] is its message, a thrown
    non-[Error] is a number, and a reviver invocation is the number of the
    property it visits. *)
Module Sample.

Definition error_message (e : jsstring) : jsstring := e.

(** A parser that knows four kinds of text: the empty one; one that opens
    with [1], which parses and runs the reviver once; one that opens with
    [!], on which the reviver throws the number 42; any other, on which
    the parser fails at offset 3. *)
Definition JSON_parse (text : jsstring) (reviver : option unit)
    : list nat * completion (foreign jsstring nat) unit :=
  match text with
  | [] => ([], Throw (ErrorValue (lit "Unexpected end of JSON input")))
  | c :: _ =>
      if N.eqb c 49 then ([0], Normal tt)
      else if N.eqb c 33 then ([0], Throw (OtherValue 42))
      else
        ([], Throw (ErrorValue
                      (lit "Unexpected token ] in JSON at position 3")))
  end.

(** A converter for one-line texts. *)
Definition indexToPosition (text : jsstring) (textIndex : number)
    (oneBased : bool)
    : completion (foreign jsstring nat) LineColumnPosition :=
  Normal {| line := Int 1; column := add1 textIndex |}.

(** A renderer that shows the text, behind a marker when highlighting. *)
Definition codeFrameColumns (rawLines : jsstring)
    (start : LineColumnPosition) (highlightCode : bool) : jsstring :=
  if highlightCode then lit "> " ++ rawLines else rawLines.

End Sample.

(** ** Sample collaborators, continued

    A parser that words its failures with a line and a column, and a
    converter that checks its index. *)
Module Strict.

(** A parser that fails on every text, at offset 3, line 1, column 4. *)
Definition JSON_parse (text : jsstring) (reviver : option unit)
    : list nat * completion (foreign jsstring nat) unit :=
  ([], Throw (ErrorValue
                (lit "Unexpected token ] in JSON at position 3 (line 1 column 4)"))).

(** A converter for one-line texts that throws on an index that is no
    integer or that is out of the text. *)
Definition indexToPosition (text : jsstring) (textIndex : number)
    (oneBased : bool)
    : completion (foreign jsstring nat) LineColumnPosition :=
  match textIndex with
  | Int z =>
      if ((0 <=? z) && (z <? js_length text))%Z
      then Normal {| line := Int 1; column := Int (z + 1) |}
      else Throw (ErrorValue (lit "Index out of bounds"))
  | _ => Throw (ErrorValue (lit "Index parameter should be an integer"))
  end.

End Strict.

(** ** Sample collaborators, continued

    A world with revivers that throw: an [Error] has a constructor and a
    message, and a reviver is what it does with the value it visits. *)
Module Revived.

Inductive error_object : Type :=
| SyntaxError (message : jsstring)
| TypeError (message : jsstring).

Definition error_message (e : error_object) : jsstring :=
  match e with
  | SyntaxError m => m
  | TypeError m => m
  end.

Inductive reviver : Type :=
| Identity
| Throwing (t : foreign error_object nat).

(** A parser that fails on the empty text with a [SyntaxError], and reads
    any other text as one value, which it hands to the reviver. *)
Definition JSON_parse (text : jsstring) (r : option reviver)
    : list nat * completion (foreign error_object nat) unit :=
  match text with
  | [] =>
      ([], Throw (ErrorValue (SyntaxError (lit "Unexpected end of JSON input"))))
  | _ :: _ =>
      match r with
      | None => ([], Normal tt)
      | Some Identity => ([0], Normal tt)
      | Some (Throwing t) => ([0], Throw t)
      end
  end.

(** A converter for one-line texts. *)
Definition indexToPosition (text : jsstring) (textIndex : number)
    (oneBased : bool)
    : completion (foreign error_object nat) LineColumnPosition :=
  Normal {| line := Int 1; column := add1 textIndex |}.

End Revived.

(** * Properties *)

(** ** Strings *)

Lemma strip_prefix_app (p r : jsstring) : strip_prefix p (p ++ r) = Some r.
Proof.
  induction p as [|c p IH]; simpl; [reflexivity|].
  now rewrite N.eqb_refl.
Qed.

Lemma strip_prefix_Some (p s r : jsstring) :
  strip_prefix p s = Some r -> s = p ++ r.
Proof.
  revert s; induction p as [|c p IH]; intros s H; simpl in *.
  - now inversion H.
  - destruct s as [|c' s']; [discriminate|].
    destruct (N.eqb_spec c' c) as [->|]; [|discriminate].
    now rewrite (IH _ H).
Qed.

Lemma forallb_rev {A : Type} (f : A -> bool) (l : list A) :
  forallb f (rev l) = forallb f l.
Proof.
  induction l as [|a l IH]; simpl; [reflexivity|].
  rewrite forallb_app, IH. simpl. rewrite andb_true_r. apply andb_comm.
Qed.

(** Two decompositions of one string into a run of the class [p] and a rest
    that does not go on with [p] are the same decomposition. *)
Lemma run_unique (p : char16 -> bool) (D1 D2 r1 r2 : jsstring) :
  forallb p D1 = true -> forallb p D2 = true ->
  (forall c t, r1 = c :: t -> p c = false) ->
  (forall c t, r2 = c :: t -> p c = false) ->
  D1 ++ r1 = D2 ++ r2 -> D1 = D2 /\ r1 = r2.
Proof.
  revert D2; induction D1 as [|a D1 IH]; intros [|b D2] H1 H2 N1 N2 E;
    simpl in *.
  - now split.
  - subst r1. apply andb_prop in H2 as [Hb _].
    rewrite (N1 _ _ eq_refl) in Hb. discriminate.
  - subst r2. apply andb_prop in H1 as [Ha _].
    rewrite (N2 _ _ eq_refl) in Ha. discriminate.
  - injection E as -> E. apply andb_prop in H1 as [_ H1].
    apply andb_prop in H2 as [_ H2].
    destruct (IH D2 H1 H2 N1 N2 E) as [-> ->]. now split.
Qed.

Lemma digits_rev (s : jsstring) : digits s -> digits (rev s).
Proof.
  intros [Hne Hd]. split.
  - intros E. apply Hne. apply (f_equal (@rev _)) in E.
    now rewrite rev_involutive in E.
  - now rewrite forallb_rev.
Qed.

(** ** The matcher *)

Module RegExpFacts.

Lemma rmatch_rlit (s : jsstring) (x : mstate) (k : mstate -> option mstate) :
  rmatch (rlit s) Forward x k =
  match strip_prefix s (remaining x) with
  | Some a' => k (MState (rev s ++ consumed x) a' (captures x))
  | None => None
  end.
Proof.
  revert x; induction s as [|c s IH]; intros [b a caps]; simpl.
  - reflexivity.
  - destruct a as [|c' a']; [reflexivity|].
    destruct (N.eqb_spec c' c) as [->|]; [|reflexivity].
    fold (rlit s). rewrite IH. simpl.
    now rewrite <- app_assoc.
Qed.

Lemma strip_prefix_snoc (p s : jsstring) (c : char16) :
  strip_prefix (p ++ [c]) s =
  match strip_prefix p s with
  | Some (c' :: s') => if N.eqb c' c then Some s' else None
  | _ => None
  end.
Proof.
  revert s; induction p as [|a p IH]; intros s; simpl.
  - destruct s as [|c' s']; [reflexivity|]. now destruct (N.eqb c' c).
  - destruct s as [|c' s']; [reflexivity|].
    destruct (N.eqb c' a); [apply IH | reflexivity].
Qed.

Lemma rmatch_rlit_backward (s : jsstring) (x : mstate)
    (k : mstate -> option mstate) :
  rmatch (rlit s) Backward x k =
  match strip_prefix (rev s) (consumed x) with
  | Some b' => k (MState b' (s ++ remaining x) (captures x))
  | None => None
  end.
Proof.
  revert x k; induction s as [|c s IH]; intros [b a caps] k; simpl.
  - reflexivity.
  - fold (rlit s). rewrite IH. simpl. rewrite strip_prefix_snoc.
    destruct (strip_prefix (rev s) b) as [[|c' b']|]; try reflexivity.
    now destruct (N.eqb_spec c' c) as [->|].
Qed.

(** What a class repetition hands to a continuation that succeeds: a
    non-empty run of the class. *)
Lemma repeat_set_sound (p : char16 -> bool) (a b : jsstring)
    (caps : list (option jsstring)) (k : mstate -> option mstate)
    (z : mstate) :
  repeat_set p Forward a b caps k = Some z ->
  exists D a', D <> [] /\ forallb p D = true /\ a = D ++ a' /\
               k (MState (rev D ++ b) a' caps) = Some z.
Proof.
  revert b; induction a as [|c a IH]; intros b H; simpl in H;
    [discriminate|].
  destruct (p c) eqn:Hc; [|discriminate].
  destruct (repeat_set p Forward a (c :: b) caps k) eqn:Hr.
  - inversion H; subst. destruct (IH _ Hr) as (D & a' & _ & HD & -> & Hk).
    exists (c :: D), a'. repeat split; try discriminate.
    + simpl. now rewrite Hc.
    + simpl. now rewrite <- app_assoc.
  - exists [c], a. repeat split; try discriminate.
    + simpl. now rewrite Hc.
    + exact H.
Qed.

(** Greedy: the longest run is tried first. *)
Lemma repeat_set_longest (p : char16 -> bool) (D a' b : jsstring)
    (caps : list (option jsstring)) (k : mstate -> option mstate)
    (z : mstate) :
  D <> [] -> forallb p D = true ->
  (forall c t, a' = c :: t -> p c = false) ->
  k (MState (rev D ++ b) a' caps) = Some z ->
  repeat_set p Forward (D ++ a') b caps k = Some z.
Proof.
  revert b; induction D as [|c D IH]; intros b Hne HD Hstop Hk;
    [contradiction|].
  simpl in *. apply andb_prop in HD as [Hc HD]. rewrite Hc.
  destruct D as [|c2 D].
  - simpl in *. destruct a' as [|c' t]; simpl.
    + exact Hk.
    + rewrite (Hstop _ _ eq_refl). exact Hk.
  - rewrite (IH (c :: b)); try discriminate; auto.
    simpl in *. now rewrite <- !app_assoc in *.
Qed.

Lemma rmatch_seq (r1 r2 : regex) (x : mstate)
    (k : mstate -> option mstate) :
  rmatch (RSeq r1 r2) Forward x k
  = rmatch r1 Forward x (fun y => rmatch r2 Forward y k).
Proof. reflexivity. Qed.

Lemma rmatch_opt (r : regex) (d : direction) (x : mstate)
    (k : mstate -> option mstate) :
  rmatch (ROpt r) d x k
  = match rmatch r d x
            (fun y => if Nat.eqb (endIndex y) (endIndex x) then None
                      else k y) with
    | Some z => Some z
    | None => k x
    end.
Proof. reflexivity. Qed.

Lemma rmatch_eol (d : direction) (x : mstate)
    (k : mstate -> option mstate) :
  rmatch REol d x k
  = match remaining x with [] => k x | _ :: _ => None end.
Proof. reflexivity. Qed.

Lemma between_forward (D b a a' : jsstring)
    (c c' : list (option jsstring)) :
  between Forward (MState b a c) (MState (rev D ++ b) a' c') = D.
Proof.
  unfold between, endIndex; simpl.
  rewrite length_app, Nat.add_sub.
  rewrite <- (Nat.add_0_r (length (rev D))), firstn_app_2. simpl.
  rewrite app_nil_r. apply rev_involutive.
Qed.

End RegExpFacts.

(** ** The search loop *)

Module ExecFacts.

(** A match found by the search starts at some split of the input, where the
    matcher succeeds. *)
Lemma exec_from_sound (re : regexp) (a b : jsstring) (m : match_result) :
  exec_from re b a = Some m ->
  exists a1 a2,
    a = a1 ++ a2 /\
    m_start m = MState (rev a1 ++ b) a2 (repeat None (ncaptures re)) /\
    rmatch (pattern re) Forward (m_start m) (fun y => Some y)
      = Some (m_end m).
Proof.
  revert b; induction a as [|c a IH]; intros b H; cbn [exec_from] in H.
  - destruct (rmatch (pattern re) Forward (MState b [] _) _) eqn:Hm;
      [|discriminate].
    inversion H; subst. exists [], []. repeat split. exact Hm.
  - destruct (rmatch (pattern re) Forward (MState b (c :: a) _) _) eqn:Hm.
    + inversion H; subst. exists [], (c :: a). repeat split. exact Hm.
    + destruct (IH _ H) as (a1 & a2 & -> & Hs & Hr).
      exists (c :: a1), a2. repeat split; [|exact Hr].
      rewrite Hs. simpl. now rewrite <- app_assoc.
Qed.

(** If the matcher succeeds at some split of the input, the search finds a
    match (at that split or to its left). *)
Lemma exec_from_finds (re : regexp) (a1 a2 b : jsstring) (y : mstate) :
  rmatch (pattern re) Forward
    (MState (rev a1 ++ b) a2 (repeat None (ncaptures re)))
    (fun y => Some y) = Some y ->
  exists m, exec_from re b (a1 ++ a2) = Some m.
Proof.
  revert b; induction a1 as [|c a1 IH]; intros b H.
  - simpl in H. destruct a2; cbn [app exec_from]; rewrite H; eauto.
  - cbn [app exec_from].
    destruct (rmatch (pattern re) Forward (MState b (c :: a1 ++ a2) _) _);
      [eauto|].
    apply IH. simpl in H. now rewrite <- app_assoc in H.
Qed.

End ExecFacts.

(** ** The pattern of [getErrorLocation] *)

Module LocationFacts.
Import RegExpFacts ExecFacts.

(** A literal followed by a captured run of a class, then the rest of the
    pattern: what a success says about the input. *)
Lemma lit_run_sound (s : jsstring) (n : nat) (p : char16 -> bool)
    (r : regex) (b a : jsstring) (caps : list (option jsstring))
    (k : mstate -> option mstate) (z : mstate) :
  rmatch (RSeq (rlit s) (RSeq (RGroup n (RPlusSet p)) r)) Forward
    (MState b a caps) k = Some z ->
  exists D a', D <> [] /\ forallb p D = true /\ a = s ++ D ++ a' /\
    rmatch r Forward
      (MState (rev D ++ rev s ++ b) a'
         (set_nth (pred n) (Some D) caps)) k = Some z.
Proof.
  intros H. cbn [rmatch] in H. rewrite rmatch_rlit in H.
  cbn [remaining consumed captures] in H.
  destruct (strip_prefix s a) as [a0|] eqn:Ha; [|discriminate].
  apply strip_prefix_Some in Ha. subst a.
  cbn [ahead behind remaining consumed captures] in H.
  apply repeat_set_sound in H as (D & a1 & HDne & HD & -> & H).
  rewrite between_forward in H. cbn [remaining consumed captures] in H.
  exists D, a1. auto.
Qed.

(** The converse, for a run that cannot be extended. *)
Lemma lit_run_complete (s : jsstring) (n : nat) (p : char16 -> bool)
    (r : regex) (b D a' : jsstring) (caps : list (option jsstring))
    (k : mstate -> option mstate) :
  D <> [] -> forallb p D = true ->
  (forall c t, a' = c :: t -> p c = false) ->
  (exists z,
     rmatch r Forward
       (MState (rev D ++ rev s ++ b) a'
          (set_nth (pred n) (Some D) caps)) k = Some z) ->
  exists z,
    rmatch (RSeq (rlit s) (RSeq (RGroup n (RPlusSet p)) r)) Forward
      (MState b (s ++ D ++ a') caps) k = Some z.
Proof.
  intros HDne HD Hstop [z H]. exists z. cbn [rmatch]. rewrite rmatch_rlit.
  cbn [remaining consumed captures]. rewrite strip_prefix_app.
  cbn [ahead behind remaining consumed captures].
  apply repeat_set_longest; auto.
  rewrite between_forward. cbn [remaining consumed captures]. exact H.
Qed.

(** What the pattern accepts from a given start, and what it captures. *)
Lemma location_pattern_sound (b a : jsstring) (y : mstate) :
  rmatch location_pattern Forward (MState b a [None; None; None])
    (fun y => Some y) = Some y ->
  exists D, digits D /\
    ((a = lit "in JSON at position " ++ D /\
      captures y = [Some D; None; None]) \/
     (exists L C, digits L /\ digits C /\
        a = lit "in JSON at position " ++ D ++ lit " (line " ++ L
              ++ lit " column " ++ C ++ lit ")" /\
        captures y = [Some D; Some L; Some C])).
Proof.
  unfold location_pattern. intros H.
  apply lit_run_sound in H as (D & a1 & HDne & HD & -> & H).
  exists D. split; [now split|].
  rewrite rmatch_seq, rmatch_opt in H. cbn [set_nth pred] in H.
  match type of H with
  | match ?opt with _ => _ end = _ => destruct opt as [z|] eqn:Hopt
  end.
  - right. injection H as ->.
    apply lit_run_sound in Hopt as (L & a2 & HLne & HL & -> & Hopt).
    apply lit_run_sound in Hopt as (C & a3 & HCne & HC & -> & Hopt).
    rewrite rmatch_rlit in Hopt. cbn [remaining consumed captures] in Hopt.
    destruct (strip_prefix _ a3) as [a4|] eqn:Ha; [|discriminate].
    apply strip_prefix_Some in Ha. subst a3.
    destruct (Nat.eqb _ _); [discriminate|].
    rewrite rmatch_eol in Hopt.
    cbn [remaining] in Hopt. destruct a4; [|discriminate].
    injection Hopt as <-. exists L, C. cbn [captures set_nth pred].
    repeat split; auto.
  - left. rewrite rmatch_eol in H.
    cbn [remaining] in H. destruct a1; [|discriminate].
    injection H as <-. now rewrite app_nil_r.
Qed.

(** The pattern accepts an offset that ends the input. *)
Lemma location_pattern_offset (b D : jsstring) :
  digits D ->
  exists y,
    rmatch location_pattern Forward
      (MState b (lit "in JSON at position " ++ D) [None; None; None])
      (fun y => Some y) = Some y.
Proof.
  intros [HDne HD]. unfold location_pattern.
  assert (E : D = D ++ []) by now rewrite app_nil_r.
  rewrite E. apply lit_run_complete; auto; [discriminate|].
  rewrite rmatch_seq, rmatch_opt, rmatch_seq, rmatch_rlit. simpl. eauto.
Qed.

(** The pattern accepts an offset followed by a line and a column that end
    the input. *)
Lemma location_pattern_line_column (b D L C : jsstring) :
  digits D -> digits L -> digits C ->
  exists y,
    rmatch location_pattern Forward
      (MState b
         (lit "in JSON at position " ++ D ++ lit " (line " ++ L
            ++ lit " column " ++ C ++ lit ")")
         [None; None; None])
      (fun y => Some y) = Some y.
Proof.
  intros [HDne HD] [HLne HL] [HCne HC]. unfold location_pattern.
  apply lit_run_complete; auto.
  { intros c t E. now injection E as <- _. }
  rewrite rmatch_seq, rmatch_opt.
  match goal with
  | |- exists y, match ?e with _ => _ end = _ =>
      assert (exists z, e = Some z) as [z Hz]; [|rewrite Hz; eauto]
  end.
  apply lit_run_complete; auto.
  { intros c t E. now injection E as <- _. }
  apply lit_run_complete; auto.
  { intros c t E. now injection E as <- _. }
  rewrite rmatch_rlit. cbn [remaining consumed captures].
  change (strip_prefix (lit ")") (lit ")")) with (Some (@nil char16)).
  unfold endIndex. cbn [consumed remaining].
  match goal with
  | |- exists z, (if ?c then _ else _) = _ => destruct c eqn:Hc
  end.
  - apply Nat.eqb_eq in Hc. rewrite !length_app in Hc. simpl in Hc. lia.
  - simpl. eauto.
Qed.

Ltac stops_here :=
  let c := fresh "c" in
  let t := fresh "t" in
  let E := fresh "E" in
  intros c t E; simpl in E; injection E as <- _; reflexivity.

Lemma rev_digits_head (D r : jsstring) (c : char16) (t : jsstring) :
  digits D -> rev D ++ r = c :: t -> is_digit c = true.
Proof.
  intros HD E. apply digits_rev in HD as [Hne Hd].
  destruct (rev D) as [|d D']; [contradiction|].
  simpl in *. injection E as <- _. now apply andb_prop in Hd as [Hd _].
Qed.

Ltac unfold_location H :=
  change (pattern location_re) with location_pattern in H;
  change (repeat None (ncaptures location_re))
    with [@None jsstring; None; None] in H.

(** A message that ends with an offset: the search finds a match, and its
    captures are the offset alone. *)
Lemma exec_location_offset (message D : jsstring) :
  offset_shape message D ->
  exists m, exec location_re message = Some m /\
            captures (m_end m) = [Some D; None; None].
Proof.
  intros (HD & pre & ->).
  destruct (location_pattern_offset (rev pre ++ []) HD) as [y Hy].
  destruct (exec_from_finds location_re pre _ [] Hy) as [m Hm].
  exists m. split; [exact Hm|].
  apply exec_from_sound in Hm as (a1 & a2 & E & Hs & Hr).
  rewrite Hs in Hr. unfold_location Hr.
  apply location_pattern_sound in Hr
    as (D' & HD' & [(-> & Hc) | (L & C & HL & HC & -> & Hc)]);
    apply (f_equal (@rev _)) in E;
    rewrite !rev_app_distr, <- !app_assoc in E.
  - rewrite Hc. apply run_unique with (p := is_digit) in E as [E _].
    + apply (f_equal (@rev _)) in E. rewrite !rev_involutive in E.
      now subst.
    + rewrite forallb_rev. apply HD.
    + rewrite forallb_rev. apply HD'.
    + stops_here.
    + stops_here.
  - simpl in E. apply rev_digits_head in E; [discriminate | exact HD].
Qed.

(** A message that ends with an offset, a line and a column: the search
    finds a match, and its captures are the three. *)
Lemma exec_location_line_column (message D L C : jsstring) :
  line_column_shape message D L C ->
  exists m, exec location_re message = Some m /\
            captures (m_end m) = [Some D; Some L; Some C].
Proof.
  intros (HD & HL & HC & pre & ->).
  destruct (location_pattern_line_column (rev pre ++ []) HD HL HC)
    as [y Hy].
  destruct (exec_from_finds location_re pre _ [] Hy) as [m Hm].
  exists m. split; [exact Hm|].
  apply exec_from_sound in Hm as (a1 & a2 & E & Hs & Hr).
  rewrite Hs in Hr. unfold_location Hr.
  apply location_pattern_sound in Hr
    as (D' & HD' & [(-> & Hc) | (L' & C' & HL' & HC' & -> & Hc)]);
    apply (f_equal (@rev _)) in E;
    rewrite !rev_app_distr, <- !app_assoc in E.
  - simpl in E. symmetry in E. apply rev_digits_head in E;
      [discriminate | exact HD'].
  - rewrite Hc. simpl in E. injection E as E.
    apply run_unique with (p := is_digit) in E as [EC E];
      [ | rewrite forallb_rev; apply HC | rewrite forallb_rev; apply HC'
        | stops_here | stops_here ].
    repeat (injection E as E).
    apply run_unique with (p := is_digit) in E as [EL E];
      [ | rewrite forallb_rev; apply HL | rewrite forallb_rev; apply HL'
        | stops_here | stops_here ].
    repeat (injection E as E).
    apply run_unique with (p := is_digit) in E as [ED E];
      [ | rewrite forallb_rev; apply HD | rewrite forallb_rev; apply HD'
        | stops_here | stops_here ].
    apply (f_equal (@rev _)) in EC, EL, ED.
    rewrite !rev_involutive in EC, EL, ED. now subst.
Qed.

(** A message of neither shape: the search finds nothing. *)
Lemma exec_location_none (message : jsstring) :
  no_location_shape message -> exec location_re message = None.
Proof.
  intros [Ho Hlc]. destruct (exec location_re message) as [m|] eqn:Hm;
    [exfalso | reflexivity].
  apply exec_from_sound in Hm as (a1 & a2 & -> & Hs & Hr).
  rewrite Hs in Hr. unfold_location Hr.
  apply location_pattern_sound in Hr
    as (D & HD & [(-> & _) | (L & C & HL & HC & -> & _)]).
  - apply (Ho D). split; [exact HD|]. now exists a1.
  - apply (Hlc D L C). repeat split; try apply HD; try apply HL;
      try apply HC. now exists a1.
Qed.

End LocationFacts.

(** ** Numbers and numerals *)

Module NumberFacts.

Lemma two53_lt_max : (two53 <? 2 ^ 1024)%Z = true.
Proof. vm_compute. reflexivity. Qed.

(** Up to 2^53 in magnitude, an integer is a number. *)
Lemma to_double_exact (z : Z) :
  (Z.abs z <= two53)%Z -> to_double z = Int z.
Proof.
  intros H. unfold to_double, round_to_53_bits.
  apply Z.leb_le in H as Hb. rewrite Hb.
  assert (Hlt : (Z.abs z <? 2 ^ 1024)%Z = true).
  { apply Z.ltb_lt. pose proof two53_lt_max as Hm. apply Z.ltb_lt in Hm. lia. }
  rewrite Hlt. f_equal. destruct z; reflexivity.
Qed.

(** Beyond 2^53, rounding stays at or beyond 2^53. *)
Lemma round_to_53_bits_large (n : Z) :
  (two53 < n)%Z -> (two53 <= round_to_53_bits n)%Z.
Proof.
  intros H. unfold round_to_53_bits.
  destruct (Z.leb_spec n two53) as [Hle|_]; [lia|].
  assert (Hl : (53 <= Z.log2 n)%Z).
  { change 53%Z with (Z.log2 two53). apply Z.log2_le_mono. lia. }
  set (e := (Z.log2 n - 52)%Z).
  assert (He : (1 <= e)%Z) by (subst e; lia).
  assert (Hpe : (2 <= 2 ^ e)%Z).
  { replace e with (1 + (e - 1))%Z by lia.
    rewrite Z.pow_add_r by lia. change (2 ^ 1)%Z with 2%Z.
    assert (0 < 2 ^ (e - 1))%Z by (apply Z.pow_pos_nonneg; lia). lia. }
  assert (Hq : (2 ^ 52 <= n / 2 ^ e)%Z).
  { apply Z.div_le_lower_bound; [lia|].
    rewrite Z.mul_comm, <- Z.pow_add_r by lia.
    replace (52 + e)%Z with (Z.log2 n) by (subst e; lia).
    apply Z.log2_spec. unfold two53 in H. lia. }
  set (q := (n / 2 ^ e)%Z) in *.
  assert (Hq' : forall q', (q <= q')%Z -> (two53 <= q' * 2 ^ e)%Z).
  { intros q' Hqq. change two53 with (2 ^ 52 * 2)%Z.
    apply Z.mul_le_mono_nonneg; lia. }
  destruct (_ <? _)%Z; [apply Hq'; lia|].
  destruct (_ <? _)%Z; [apply Hq'; lia|].
  destruct (Z.even q); apply Hq'; lia.
Qed.

Lemma round_to_53_bits_small (n : Z) :
  (n <= two53)%Z -> round_to_53_bits n = n.
Proof.
  intros H. unfold round_to_53_bits. apply Z.leb_le in H. now rewrite H.
Qed.

(** A non-negative integer is rounded to [Infinity] or to a non-negative
    integer, itself up to 2^53 and one from 2^53 on beyond. *)
Lemma to_double_nonneg (z : Z) :
  (0 <= z)%Z ->
  to_double z = Infinity \/
  exists v, to_double z = Int v /\ (0 <= v)%Z /\
            ((z <= two53)%Z -> v = z) /\
            ((two53 < z)%Z -> (two53 <= v)%Z).
Proof.
  intros Hz. destruct (Z.le_gt_cases z two53) as [Hs|Hb].
  - right. exists z. rewrite to_double_exact by lia. repeat split; lia.
  - unfold to_double. rewrite Z.abs_eq by lia.
    pose proof (round_to_53_bits_large Hb) as Hr.
    destruct (_ <? _)%Z.
    + right. eexists. split; [reflexivity|].
      rewrite Z.sgn_pos by (unfold two53 in Hb; lia).
      rewrite Z.mul_1_l. unfold two53 in *. repeat split; intros; lia.
    + left. destruct (Z.ltb_spec z 0); [lia | reflexivity].
Qed.

Lemma decimal_value_acc (d : Decimal.uint) (acc : positive) :
  fold_left (fun a c => (10 * a + (Z.of_N c - 48))%Z)
    (lit (DecimalString.NilEmpty.string_of_uint d)) (Z.pos acc)
  = Z.pos (Pos.of_uint_acc d acc).
Proof.
  revert acc. induction d; intros acc;
    cbn [DecimalString.NilEmpty.string_of_uint Pos.of_uint_acc];
    [reflexivity | ..];
    unfold lit; cbn [list_ascii_of_string map fold_left];
    fold (lit (DecimalString.NilEmpty.string_of_uint d));
    match goal with
    | |- fold_left _ _ ?a = Z.pos (Pos.of_uint_acc _ ?b) =>
        replace a with (Z.pos b);
          [apply IHd
          | cbn [N_of_ascii N_of_digits]; lia]
    end.
Qed.

(** The module reads a numeral as the Standard Library does. *)
Lemma decimal_value_of_uint (d : Decimal.uint) :
  decimal_value (lit (DecimalString.NilEmpty.string_of_uint d))
  = Z.of_N (N.of_uint d).
Proof.
  unfold decimal_value, N.of_uint.
  induction d;
    cbn [DecimalString.NilEmpty.string_of_uint Pos.of_uint];
    [reflexivity | ..];
    unfold lit; cbn [list_ascii_of_string map fold_left];
    fold (lit (DecimalString.NilEmpty.string_of_uint d));
    [exact IHd | ..];
    match goal with
    | |- fold_left _ _ ?a = Z.of_N (N.pos (Pos.of_uint_acc _ ?b)) =>
        replace a with (Z.pos b);
          [apply decimal_value_acc
          | cbn [N_of_ascii N_of_digits]; lia]
    end.
Qed.

Lemma numeral_value (s : jsstring) (n : N) :
  numeral s n -> decimal_value s = Z.of_N n.
Proof.
  intros (d & _ & -> & <-). apply decimal_value_of_uint.
Qed.

Lemma uint_digits (d : Decimal.uint) :
  forallb is_digit (lit (DecimalString.NilEmpty.string_of_uint d)) = true.
Proof.
  induction d; cbn [DecimalString.NilEmpty.string_of_uint];
    [reflexivity | ..];
    unfold lit; cbn [list_ascii_of_string map forallb];
    fold (lit (DecimalString.NilEmpty.string_of_uint d));
    rewrite IHd; reflexivity.
Qed.

Lemma numeral_digits (s : jsstring) (n : N) : numeral s n -> digits s.
Proof.
  intros (d & Hd & -> & _). split; [|apply uint_digits].
  destruct d; try contradiction; discriminate.
Qed.

(** Every run of digits is a numeral. *)
Lemma digits_spelled (s : jsstring) :
  forallb is_digit s = true ->
  exists d, s = lit (DecimalString.NilEmpty.string_of_uint d).
Proof.
  induction s as [|c s IH]; intros H.
  - now exists Decimal.Nil.
  - cbn [forallb] in H. apply andb_prop in H as [Hc H].
    destruct (IH H) as [d ->].
    unfold is_digit in Hc. apply andb_prop in Hc as [H1 H2].
    apply N.leb_le in H1, H2.
    assert (Hk : (c = 48 \/ c = 49 \/ c = 50 \/ c = 51 \/ c = 52 \/ c = 53
                  \/ c = 54 \/ c = 55 \/ c = 56 \/ c = 57)%N) by lia.
    destruct Hk as
      [-> | [-> | [-> | [-> | [-> | [-> | [-> | [-> | [-> | ->] ] ] ] ] ] ] ] ].
    + now exists (Decimal.D0 d).
    + now exists (Decimal.D1 d).
    + now exists (Decimal.D2 d).
    + now exists (Decimal.D3 d).
    + now exists (Decimal.D4 d).
    + now exists (Decimal.D5 d).
    + now exists (Decimal.D6 d).
    + now exists (Decimal.D7 d).
    + now exists (Decimal.D8 d).
    + now exists (Decimal.D9 d).
Qed.

Lemma digits_numeral (s : jsstring) : digits s -> exists n, numeral s n.
Proof.
  intros [Hne H]. destruct (digits_spelled s H) as [d ->].
  exists (N.of_uint d), d. repeat split. intros ->. now apply Hne.
Qed.

Lemma Number_of_digits (D : jsstring) :
  digits D -> Number (Some D) = to_double (decimal_value D).
Proof. intros [_ H]. unfold Number. now rewrite H. Qed.

Lemma Number_numeral (D : jsstring) (n : N) :
  numeral D n -> Number (Some D) = to_double (Z.of_N n).
Proof.
  intros H. rewrite (Number_of_digits (numeral_digits H)).
  now rewrite (numeral_value H).
Qed.

Lemma Number_numeral_exact (D : jsstring) (n : N) :
  numeral D n -> (Z.of_N n <= two53)%Z -> Number (Some D) = Int (Z.of_N n).
Proof.
  intros H Hn. rewrite (Number_numeral H). apply to_double_exact. lia.
Qed.

End NumberFacts.

(** ** The pattern of [addCodePointToUnexpectedToken] *)

Module TokenFacts.
Import RegExpFacts ExecFacts.

Lemma rmatch_lookbehind (r : regex) (x : mstate)
    (k : mstate -> option mstate) :
  rmatch (RLookbehind r) Forward x k
  = match rmatch r Backward x (fun y => Some y) with
    | Some y => k (MState (consumed x) (remaining x) (captures y))
    | None => None
    end.
Proof. reflexivity. Qed.

(** The lookbehind [(?<=^Unexpected token )] holds at end index 17 of a
    message that starts with the literal, and nowhere else. *)
Lemma lookbehind_start (s b a : jsstring) (caps : list (option jsstring))
    (k : mstate -> option mstate) :
  rmatch (RLookbehind (RSeq RBol (rlit s))) Forward (MState b a caps) k
  = match strip_prefix (rev s) b with
    | Some [] => k (MState b a caps)
    | _ => None
    end.
Proof.
  rewrite rmatch_lookbehind. cbn [rmatch]. rewrite rmatch_rlit_backward.
  cbn [consumed remaining captures].
  destruct (strip_prefix (rev s) b) as [[|c b']|]; reflexivity.
Qed.

Lemma unexpected_token_start (b a : jsstring)
    (caps : list (option jsstring)) (y : mstate) :
  rmatch unexpected_token_pattern Forward (MState b a caps)
    (fun y => Some y) = Some y ->
  b = rev (lit "Unexpected token ").
Proof.
  unfold unexpected_token_pattern. rewrite rmatch_seq, lookbehind_start.
  destruct (strip_prefix _ b) as [[|c b']|] eqn:Hb; try discriminate.
  intros _. apply strip_prefix_Some in Hb. now rewrite app_nil_r in Hb.
Qed.

(** The search of the pattern: only index 17 of a message that starts with
    "Unexpected token " can match. *)
Lemma exec_unexpected_token (message : jsstring) :
  exec unexpected_token_re message =
  match strip_prefix (lit "Unexpected token ") message with
  | None => None
  | Some a =>
      let x := MState (rev (lit "Unexpected token ")) a [None; None] in
      match rmatch unexpected_token_pattern Forward x (fun y => Some y) with
      | Some y => Some (MatchResult x y)
      | None => None
      end
  end.
Proof.
  assert (Hstart : forall m,
    exec unexpected_token_re message = Some m ->
    exists a, message = lit "Unexpected token " ++ a /\
      m_start m = MState (rev (lit "Unexpected token ")) a [None; None] /\
      rmatch unexpected_token_pattern Forward (m_start m) (fun y => Some y)
        = Some (m_end m)).
  { intros m Hm.
    apply exec_from_sound in Hm as (a1 & a2 & -> & Hs & Hr).
    pose proof Hr as Hr'. rewrite Hs in Hr'.
    apply unexpected_token_start in Hr'. rewrite app_nil_r in Hr'.
    apply (f_equal (@rev _)) in Hr'. rewrite !rev_involutive in Hr'.
    subst a1. exists a2. repeat split; auto. }
  destruct (strip_prefix _ message) as [a|] eqn:Hp.
  - apply strip_prefix_Some in Hp. subst message. cbv zeta.
    destruct (rmatch _ _ (MState _ a _) _) as [y|] eqn:Hr.
    + destruct (exec_from_finds unexpected_token_re
                  (lit "Unexpected token ") a [] (y := y)) as [m Hm].
      { exact Hr. }
      fold (exec unexpected_token_re (lit "Unexpected token " ++ a)) in Hm.
      rewrite Hm. destruct (Hstart _ Hm) as (a' & E & Hs & Hr').
      apply app_inv_head in E. subst a'. destruct m as [ms me].
      cbn [m_start m_end] in *. subst ms. rewrite Hr in Hr'.
      now injection Hr' as <-.
    + destruct (exec _ _) as [m|] eqn:Hm; [|reflexivity].
      destruct (Hstart _ eq_refl) as (a' & E & Hs & Hr').
      apply app_inv_head in E. subst a'. rewrite Hs, Hr in Hr'.
      discriminate.
  - destruct (exec _ _) as [m|] eqn:Hm; [|reflexivity].
    destruct (Hstart _ eq_refl) as (a' & -> & _).
    now rewrite strip_prefix_app in Hp.
Qed.

Lemma codePointAt_single (X : char16) : codePointAt [X] 0 = Some X.
Proof.
  unfold codePointAt. cbn [skipn].
  now destruct ((X <? 55296) || (56319 <? X))%N.
Qed.

(** The matcher at end index 17: a token in single quotes. *)
Lemma token_match_quoted (X : char16) (rest : jsstring) :
  is_dot X = true ->
  rmatch unexpected_token_pattern Forward
    (MState (rev (lit "Unexpected token ")) (39%N :: X :: 39%N :: rest)
       [None; None])
    (fun y => Some y)
  = Some (MState (39%N :: X :: 39%N :: rev (lit "Unexpected token ")) rest
            [Some [39%N]; Some [X]]).
Proof.
  intros HX. unfold unexpected_token_pattern.
  rewrite rmatch_seq, lookbehind_start.
  cbn -[is_dot]. rewrite HX. reflexivity.
Qed.

(** The matcher at end index 17: a bare token, for an input that does not
    read as a token in single quotes. *)
Lemma token_match_bare (X : char16) (rest : jsstring) :
  is_dot X = true ->
  (X = 39%N ->
   forall Y rest', rest = Y :: 39%N :: rest' -> is_dot Y = false) ->
  rmatch unexpected_token_pattern Forward
    (MState (rev (lit "Unexpected token ")) (X :: rest) [None; None])
    (fun y => Some y)
  = Some (MState (X :: rev (lit "Unexpected token ")) rest
            [None; Some [X]]).
Proof.
  intros HX Hq. unfold unexpected_token_pattern.
  rewrite rmatch_seq, lookbehind_start.
  destruct (N.eqb_spec X 39) as [->|Hne].
  - specialize (Hq eq_refl).
    destruct rest as [|Y [|q rest']]; cbn -[is_dot].
    + reflexivity.
    + now destruct (is_dot Y).
    + destruct (is_dot Y) eqn:HY; [|reflexivity].
      destruct (N.eqb_spec q 39) as [->|Hq']; [|reflexivity].
      rewrite (Hq _ _ eq_refl) in HY. discriminate.
  - apply N.eqb_neq in Hne. cbn -[is_dot N.eqb]. rewrite Hne.
    cbn -[is_dot N.eqb]. rewrite HX. reflexivity.
Qed.

(** The matcher at end index 17: nothing to match at the end of the message
    or at a line terminator. *)
Lemma token_no_match_end :
  rmatch unexpected_token_pattern Forward
    (MState (rev (lit "Unexpected token ")) [] [None; None])
    (fun y => Some y) = None.
Proof. reflexivity. Qed.

Lemma token_no_match_terminator (X : char16) (rest : jsstring) :
  is_dot X = false ->
  rmatch unexpected_token_pattern Forward
    (MState (rev (lit "Unexpected token ")) (X :: rest) [None; None])
    (fun y => Some y) = None.
Proof.
  intros HX. unfold unexpected_token_pattern.
  rewrite rmatch_seq, lookbehind_start.
  destruct (N.eqb_spec X 39) as [->|Hne]; [discriminate|].
  apply N.eqb_neq in Hne. cbn -[is_dot N.eqb]. rewrite Hne.
  cbn -[is_dot N.eqb]. now rewrite HX.
Qed.

(** In every match of the pattern the second group, the token, takes part
    and holds one code unit. *)
Lemma token_always_captured (message : jsstring) (m : match_result) :
  exec unexpected_token_re message = Some m ->
  exists X, capture 2 (captures (m_end m)) = Some [X].
Proof.
  rewrite exec_unexpected_token.
  destruct (strip_prefix _ message) as [a|]; [|discriminate]. cbv zeta.
  assert (Hbare : forall X rest,
    is_dot X = true ->
    (X = 39%N ->
     forall Y rest', rest = Y :: 39%N :: rest' -> is_dot Y = false) ->
    match rmatch unexpected_token_pattern Forward
            (MState (rev (lit "Unexpected token ")) (X :: rest) [None; None])
            (fun y => Some y) with
    | Some y => Some (MatchResult
                        (MState (rev (lit "Unexpected token ")) (X :: rest)
                           [None; None]) y)
    | None => None
    end = Some m ->
    exists X, capture 2 (captures (m_end m)) = Some [X]).
  { intros X rest HX Hq. rewrite token_match_bare by assumption.
    intros E. injection E as <-. now exists X. }
  destruct a as [|X rest].
  - rewrite token_no_match_end. discriminate.
  - destruct (is_dot X) eqn:HX;
      [|rewrite token_no_match_terminator by assumption; discriminate].
    destruct (N.eqb_spec X 39) as [->|Hne]; [|now apply Hbare].
    destruct rest as [|Y [|q rest']];
      try (apply Hbare; [exact HX | discriminate]).
    destruct (is_dot Y) eqn:HY.
    + destruct (N.eqb_spec q 39) as [->|Hq].
      * rewrite token_match_quoted by assumption.
        intros E. injection E as <-. now exists Y.
      * apply Hbare; [exact HX|]. intros _ Y' r E. congruence.
    + apply Hbare; [exact HX|]. intros _ Y' r E. congruence.
Qed.

(** What the replacer writes for a token of one code unit. *)
Lemma token_replacer_single (m : jsstring) (q : option jsstring)
    (X : char16) :
  token_replacer m [q; Some [X]] = rendered_token X (toString16 X).
Proof.
  unfold token_replacer, rendered_token, getCodePoint.
  cbn [capture capture_string nth_error pred].
  rewrite codePointAt_single. generalize (toString16 X). intros h.
  cbn. now rewrite <- !app_assoc.
Qed.

(** [addCodePointToUnexpectedToken], case by case. *)
Lemma enhance_quoted (X : char16) (rest : jsstring) :
  is_dot X = true ->
  addCodePointToUnexpectedToken
    (lit "Unexpected token " ++ 39%N :: X :: 39%N :: rest)
  = lit "Unexpected token " ++ rendered_token X (toString16 X) ++ rest.
Proof.
  intros HX. unfold addCodePointToUnexpectedToken, replace.
  rewrite exec_unexpected_token, strip_prefix_app. cbv zeta.
  rewrite token_match_quoted by assumption.
  cbn [m_start m_end consumed remaining captures].
  now rewrite token_replacer_single, rev_involutive.
Qed.

Lemma enhance_bare (X : char16) (rest : jsstring) :
  is_dot X = true ->
  (X = 39%N ->
   forall Y rest', rest = Y :: 39%N :: rest' -> is_dot Y = false) ->
  addCodePointToUnexpectedToken (lit "Unexpected token " ++ X :: rest)
  = lit "Unexpected token " ++ rendered_token X (toString16 X) ++ rest.
Proof.
  intros HX Hq. unfold addCodePointToUnexpectedToken, replace.
  rewrite exec_unexpected_token, strip_prefix_app. cbv zeta.
  rewrite token_match_bare by assumption.
  cbn [m_start m_end consumed remaining captures].
  now rewrite token_replacer_single, rev_involutive.
Qed.

Lemma enhance_no_prefix (message : jsstring) :
  strip_prefix (lit "Unexpected token ") message = None ->
  addCodePointToUnexpectedToken message = message.
Proof.
  intros H. unfold addCodePointToUnexpectedToken, replace.
  now rewrite exec_unexpected_token, H.
Qed.

Lemma enhance_no_token :
  addCodePointToUnexpectedToken (lit "Unexpected token ")
  = lit "Unexpected token ".
Proof. reflexivity. Qed.

Lemma enhance_terminator (X : char16) (rest : jsstring) :
  is_dot X = false ->
  addCodePointToUnexpectedToken (lit "Unexpected token " ++ X :: rest)
  = lit "Unexpected token " ++ X :: rest.
Proof.
  intros HX. unfold addCodePointToUnexpectedToken, replace.
  rewrite exec_unexpected_token, strip_prefix_app. cbv zeta.
  now rewrite token_no_match_terminator by assumption.
Qed.

End TokenFacts.

(** ** [toString(16)] *)

Module HexFacts.

Lemma hex_digit_value_digit (d : N) :
  (d < 16)%N -> hex_digit_value (hex_digit d) = Some d.
Proof.
  intros H. unfold hex_digit, hex_digit_value.
  destruct (N.ltb_spec d 10).
  - replace ((48 <=? 48 + d) && (48 + d <=? 57))%N with true.
    + f_equal. lia.
    + symmetry. apply andb_true_intro.
      split; apply N.leb_le; lia.
  - replace ((48 <=? 87 + d) && (87 + d <=? 57))%N with false.
    + replace ((97 <=? 87 + d) && (87 + d <=? 102))%N with true.
      * f_equal. lia.
      * symmetry. apply andb_true_intro.
        split; apply N.leb_le; lia.
    + symmetry. apply andb_false_intro2. apply N.leb_gt. lia.
Qed.

Lemma hex_value_from_app (a : N) (s t : jsstring) :
  hex_value_from a (s ++ t) =
  match hex_value_from a s with
  | Some v => hex_value_from v t
  | None => None
  end.
Proof.
  revert a; induction s as [|c s IH]; intros a; simpl; [reflexivity|].
  destruct (hex_digit_value c); [apply IH | reflexivity].
Qed.

(** With enough fuel, [hex_digits] puts the numeral of [n] in front of the
    accumulator. *)
Lemma hex_digits_spec (f : nat) :
  forall (n : N) (acc : jsstring),
    (n < 16 ^ N.of_nat (S f))%N ->
    exists D, hex_digits (S f) n acc = D ++ acc /\
              lowercase_unpadded_hex D n.
Proof.
  assert (Hsmall : forall n acc g, (n < 16)%N ->
    exists D, hex_digits (S g) n acc = D ++ acc /\
              lowercase_unpadded_hex D n).
  { intros n acc g Hlt. cbn [hex_digits].
    destruct (N.ltb_spec n 16) as [_|]; [|lia].
    exists [hex_digit n]. split; [reflexivity|]. repeat split.
    - discriminate.
    - cbn [hex_value_from]. rewrite hex_digit_value_digit by assumption.
      f_equal.
    - intros t E. now injection E. }
  induction f as [|f IH]; intros n acc Hn.
  - apply Hsmall. exact Hn.
  - destruct (N.ltb_spec n 16) as [Hlt|Hge]; [now apply Hsmall|].
    cbn [hex_digits]. destruct (N.ltb_spec n 16) as [|_]; [lia|].
    assert (Hq : (n / 16 < 16 ^ N.of_nat (S f))%N).
    { apply N.Div0.div_lt_upper_bound.
      rewrite (Nat2N.inj_succ (S f)), N.pow_succ_r' in Hn. exact Hn. }
    destruct (IH (n / 16)%N (hex_digit (n mod 16) :: acc) Hq)
      as (D & HD & Hne & Hv & Hz).
    exists (D ++ [hex_digit (n mod 16)]). split.
    + cbn [hex_digits] in HD. rewrite HD. now rewrite <- app_assoc.
    + repeat split.
      * destruct D; discriminate.
      * rewrite hex_value_from_app, Hv. cbn [hex_value_from].
        rewrite hex_digit_value_digit
          by (apply N.mod_upper_bound; discriminate).
        f_equal. rewrite (N.div_mod n 16) at 3 by discriminate. lia.
      * intros t E. destruct D as [|d D]; [contradiction|].
        simpl in E. injection E as -> E.
        rewrite (Hz D eq_refl) in Hv. simpl in Hv.
        injection Hv as Hv. exfalso.
        assert (n < 16)%N; [|lia].
        rewrite (N.div_mod n 16) by discriminate.
        rewrite <- Hv. pose proof (N.mod_upper_bound n 16). lia.
Qed.

Lemma size_nat_bound (n : N) : (n < 2 ^ N.of_nat (N.size_nat n))%N.
Proof.
  destruct n as [|p]; [reflexivity|]. simpl N.size_nat.
  induction p as [p IH|p IH|]; cbn [Pos.size_nat];
    rewrite ?Nat2N.inj_succ, ?N.pow_succ_r'; lia.
Qed.

(** [toString16 n] is the lowercase hexadecimal numeral of [n], without
    padding. *)
Lemma toString16_spec (n : N) : lowercase_unpadded_hex (toString16 n) n.
Proof.
  unfold toString16.
  destruct (@hex_digits_spec (N.size_nat n) n []) as (D & HD & H).
  - rewrite Nat2N.inj_succ, N.pow_succ_r'.
    pose proof (size_nat_bound n) as Hb.
    assert (2 ^ N.of_nat (N.size_nat n) <= 16 ^ N.of_nat (N.size_nat n))%N
      by (apply N.pow_le_mono_l; lia).
    lia.
  - rewrite HD, app_nil_r. exact H.
Qed.

End HexFacts.

(** ** The pipeline *)

Section PipelineFacts.

Variables JsonValue Reviver ReviverCall ErrorObject NonError : Type.
Variable error_message : ErrorObject -> jsstring.
Variable JSON_parse :
  jsstring -> option Reviver ->
  list ReviverCall * completion (foreign ErrorObject NonError) JsonValue.
Variable indexToPosition :
  jsstring -> number -> bool ->
  completion (foreign ErrorObject NonError) LineColumnPosition.
Variable codeFrameColumns :
  jsstring -> LineColumnPosition -> bool -> jsstring.

Lemma named_groups_of_location (m : match_result) :
  named_group location_re m "index" = capture 1 (captures (m_end m)) /\
  named_group location_re m "line" = capture 2 (captures (m_end m)) /\
  named_group location_re m "column" = capture 3 (captures (m_end m)).
Proof. repeat split. Qed.

(** [getErrorLocation] on a message that carries an offset only. *)
Lemma getErrorLocation_of_offset (text message offset : jsstring) :
  offset_shape message offset ->
  getErrorLocation (ReviverCall := ReviverCall) indexToPosition text message
  = if strict_equal (Number (Some offset)) (Int (js_length text)) then
      p <- call_indexToPosition indexToPosition text
             (Int (js_length text - 1)) ;;
      ret (Some {| line := p.(line); column := add1 p.(column) |})
    else
      p <- call_indexToPosition indexToPosition text
             (Number (Some offset)) ;;
      ret (Some p).
Proof.
  intros H.
  destruct (LocationFacts.exec_location_offset H) as (m & Hm & Hc).
  unfold getErrorLocation. rewrite Hm.
  destruct (named_groups_of_location m) as (-> & -> & ->).
  rewrite Hc. reflexivity.
Qed.

(** [getErrorLocation] on a message that carries a line and a column. *)
Lemma getErrorLocation_of_line_column
    (text message offset l c : jsstring) :
  line_column_shape message offset l c ->
  getErrorLocation (ReviverCall := ReviverCall) indexToPosition text message
  = ret (Some {| line := Number (Some l); column := Number (Some c) |}).
Proof.
  intros H. pose proof H as (_ & HL & HC & _).
  destruct (LocationFacts.exec_location_line_column H) as (m & Hm & Hc).
  unfold getErrorLocation. rewrite Hm.
  destruct (named_groups_of_location m) as (-> & -> & ->).
  rewrite Hc. cbn [capture nth_error pred truthy_opt].
  destruct HL as [HLne HL], HC as [HCne HC].
  destruct l; [contradiction|]. destruct c; [contradiction|].
  reflexivity.
Qed.

(** [getErrorLocation] on a message that carries an offset only, of which
    the value is known and at most 2^53. *)
Lemma getErrorLocation_of_numeral (text message offset : jsstring) (n : N) :
  offset_shape message offset ->
  numeral offset n ->
  (Z.of_N n <= two53)%Z ->
  getErrorLocation (ReviverCall := ReviverCall) indexToPosition text message
  = if (Z.of_N n =? js_length text)%Z then
      p <- call_indexToPosition indexToPosition text
             (Int (js_length text - 1)) ;;
      ret (Some {| line := p.(line); column := add1 p.(column) |})
    else
      p <- call_indexToPosition indexToPosition text (Int (Z.of_N n)) ;;
      ret (Some p).
Proof.
  intros H Hn Hb. rewrite (getErrorLocation_of_offset text H).
  now rewrite (NumberFacts.Number_numeral_exact Hn Hb).
Qed.

(** [getErrorLocation] on a message of neither shape. *)
Lemma getErrorLocation_of_other (text message : jsstring) :
  no_location_shape message ->
  getErrorLocation (ReviverCall := ReviverCall) indexToPosition text message
  = ret None.
Proof.
  intros H. unfold getErrorLocation.
  now rewrite (LocationFacts.exec_location_none H).
Qed.

(** C2: for a text (of at most 2^53 - 1 code units, as every string of
    ECMAScript is) and a message that carries an offset and no line or
    column, the offset being the numeral of [n] with [n] at most the length
    of the text: [getErrorLocation] calls the position converter once, on
    the text, at index [length - 1] when [n] is the length and at index [n]
    when it is less.  A failure of the converter is passed on.  When [n] is
    less than the length, the position the converter returns is the result;
    when [n] is the length and the converter returns line [ln] and column
    [c], an integer below 2^53 in magnitude, the result is line [ln] and
    column [c + 1]; and whatever the converter returns then, the result is
    its line and its column plus one, as numbers add. *)
Theorem getErrorLocation_offset (text message offset : jsstring) (n : N) :
  (js_length text <= 9007199254740991)%Z ->
  offset_shape message offset ->
  numeral offset n ->
  (Z.of_N n <= js_length text)%Z ->
  let last := (Z.of_N n =? js_length text)%Z in
  let index := if last then (js_length text - 1)%Z else Z.of_N n in
  let run :=
    getErrorLocation (ReviverCall := ReviverCall) indexToPosition
      text message in
  fst run = [IndexToPositionCalled text (Int index)] /\
  (forall t,
     indexToPosition text (Int index) true = Throw t ->
     snd run = Throw (ForeignValue t)) /\
  (forall p,
     indexToPosition text (Int index) true = Normal p ->
     last = false ->
     snd run = Normal (Some p)) /\
  (forall ln c,
     indexToPosition text (Int index) true
     = Normal {| line := ln; column := Int c |} ->
     last = true ->
     (Z.abs c < 9007199254740992)%Z ->
     snd run = Normal (Some {| line := ln; column := Int (c + 1) |})) /\
  (forall p,
     indexToPosition text (Int index) true = Normal p ->
     last = true ->
     snd run = Normal (Some {| line := line p; column := add1 (column p) |})).
Proof.
  intros Hlen Hs Hn Hle last index run. subst run.
  rewrite (getErrorLocation_of_numeral text Hs Hn)
    by (unfold two53; lia).
  fold last. subst index. destruct last;
    unfold call_indexToPosition, bind, ret;
    destruct (indexToPosition text _ true) as [p|t'];
    cbn [fst snd from_collaborator app]; repeat split;
    try congruence; try (intros; discriminate).
  intros ln c E _ Hc. injection E as ->. cbn [line column add1].
  rewrite NumberFacts.to_double_exact by (unfold two53; lia). reflexivity.
Qed.

(** C3, with the numbers as they are: for a message that carries an
    offset, a line and a column, the line being the numeral of [nl] and the
    column that of [nc], [getErrorLocation] calls nothing (the call record
    is empty, whatever the converter would do) and returns the position
    whose line is [Number(line)] and whose column is [Number(column)];
    these are [nl] when [nl] is at most 2^53, and [nc] when [nc] is at most
    2^53. *)
Theorem getErrorLocation_line_column
    (text message offset l c : jsstring) (nl nc : N) :
  line_column_shape message offset l c ->
  numeral l nl ->
  numeral c nc ->
  let run :=
    getErrorLocation (ReviverCall := ReviverCall) indexToPosition
      text message in
  fst run = [] /\
  snd run = Normal (Some {| line := Number (Some l);
                            column := Number (Some c) |}) /\
  ((Z.of_N nl <= 9007199254740992)%Z ->
   Number (Some l) = Int (Z.of_N nl)) /\
  ((Z.of_N nc <= 9007199254740992)%Z ->
   Number (Some c) = Int (Z.of_N nc)).
Proof.
  intros H Hl Hc run. subst run.
  rewrite (getErrorLocation_of_line_column text H).
  split; [reflexivity|]. split; [reflexivity|]. split; intros Hb.
  - now apply NumberFacts.Number_numeral_exact.
  - now apply NumberFacts.Number_numeral_exact.
Qed.

Lemma parseJson_of_error (text : jsstring) (reviver : option Reviver)
    (f : option jsstring) (calls : list ReviverCall) (e : ErrorObject) :
  JSON_parse text reviver = (calls, Throw (ErrorValue e)) ->
  parseJson error_message JSON_parse indexToPosition codeFrameColumns
    text reviver f
  = bind (map ReviverInvoked calls, Normal tt)
      (fun _ =>
         lm <- (if truthy text then
                  record (GetErrorLocationCalled text (error_message e)) ;;
                  location <- getErrorLocation indexToPosition text
                                (error_message e) ;;
                  ret (location,
                       addCodePointToUnexpectedToken (error_message e))
                else
                  ret (None, error_message e
                               ++ lit " while parsing empty string")) ;;
         record (JSONErrorConstructed (snd lm) text (fst lm)) ;;
         throw (JSONErrorValue
                  (set_fileName
                     (new_JSONError codeFrameColumns (snd lm) (Some text)
                        (fst lm)) f))).
Proof.
  intros H. unfold parseJson, call_JSON_parse. rewrite H.
  cbn [from_collaborator bind try_catch ret throw].
  rewrite !app_nil_r.
  destruct (truthy text).
  - destruct (getErrorLocation indexToPosition text (error_message e))
      as [l [o|t]]; reflexivity.
  - reflexivity.
Qed.


(** C8: when [JSON.parse] returns a value, [parseJson] returns that value;
    its call record is the sequence of reviver invocations [JSON.parse]
    made and nothing else, so no [JSONError] is constructed. *)
Theorem parseJson_success (text : jsstring) (reviver : option Reviver)
    (f : option jsstring) (calls : list ReviverCall) (v : JsonValue) :
  JSON_parse text reviver = (calls, Normal v) ->
  parseJson error_message JSON_parse indexToPosition codeFrameColumns
    text reviver f
  = (map ReviverInvoked calls, Normal v) /\
  forall m s l,
    ~ In (JSONErrorConstructed m s l)
        (fst (parseJson error_message JSON_parse indexToPosition
                codeFrameColumns text reviver f)).
Proof.
  intros H.
  assert (E : parseJson error_message JSON_parse indexToPosition
                codeFrameColumns text reviver f
              = (map ReviverInvoked calls, Normal v)).
  { unfold parseJson, call_JSON_parse. rewrite H.
    cbn [from_collaborator bind try_catch ret throw].
    now rewrite !app_nil_r. }
  split; [exact E|]. intros m s l. rewrite E. cbn [fst].
  intros Hin. apply in_map_iff in Hin as (c & Hc & _). discriminate.
Qed.

(** C7: for the empty text, when [JSON.parse] throws an [Error],
    [parseJson] throws a [JSONError] whose base message is the raw message
    followed by " while parsing empty string" and which has no code frame;
    the call record holds the reviver invocations and the construction of
    the [JSONError], and no call of [getErrorLocation] (nor of the
    position converter). *)
Theorem parseJson_empty_string (reviver : option Reviver)
    (f : option jsstring) (calls : list ReviverCall) (e : ErrorObject) :
  JSON_parse [] reviver = (calls, Throw (ErrorValue e)) ->
  let message := error_message e ++ lit " while parsing empty string" in
  parseJson error_message JSON_parse indexToPosition codeFrameColumns
    [] reviver f
  = (map ReviverInvoked calls ++ [JSONErrorConstructed message [] None],
     Throw (JSONErrorValue
              {| name := lit "JSONError"; fileName := f;
                 codeFrame := None; rawCodeFrame := None;
                 base_message := message |})) /\
  (forall s m,
     ~ In (GetErrorLocationCalled s m)
         (fst (parseJson error_message JSON_parse indexToPosition
                 codeFrameColumns [] reviver f))) /\
  (forall s i,
     ~ In (IndexToPositionCalled s i)
         (fst (parseJson error_message JSON_parse indexToPosition
                 codeFrameColumns [] reviver f))).
Proof.
  intros H message. rewrite (parseJson_of_error f H).
  cbn. repeat split.
  - intros s m Hin. apply in_app_or in Hin as [Hin|[Hin|[]]].
    + apply in_map_iff in Hin as (c & Hc & _). discriminate.
    + discriminate.
  - intros s i Hin. apply in_app_or in Hin as [Hin|[Hin|[]]].
    + apply in_map_iff in Hin as (c & Hc & _). discriminate.
    + discriminate.
Qed.

(** C5: for a message of neither shape, [getErrorLocation] returns no
    location (and calls nothing); and when [JSON.parse] throws an [Error]
    with such a message, [parseJson], for every text, throws a [JSONError]
    that has a base message, no [codeFrame] and no [rawCodeFrame]. *)
Theorem no_location_no_frame (text message : jsstring) :
  no_location_shape message ->
  getErrorLocation (ReviverCall := ReviverCall) indexToPosition
    text message = ([], Normal None) /\
  forall reviver f calls e,
    JSON_parse text reviver = (calls, Throw (ErrorValue e)) ->
    error_message e = message ->
    exists log jsonError,
      parseJson error_message JSON_parse indexToPosition codeFrameColumns
        text reviver f
      = (log, Throw (JSONErrorValue jsonError)) /\
      base_message jsonError
      = (if truthy text then addCodePointToUnexpectedToken message
         else message ++ lit " while parsing empty string") /\
      fileName jsonError = f /\
      codeFrame jsonError = None /\
      rawCodeFrame jsonError = None.
Proof.
  intros H. split; [now rewrite (getErrorLocation_of_other text H)|].
  intros reviver f calls e HP <-.
  rewrite (parseJson_of_error f HP).
  rewrite (getErrorLocation_of_other text H).
  destruct (truthy text); cbn; eexists; eexists; repeat split.
Qed.

End PipelineFacts.

(** ** The [JSONError] object *)

Section JSONErrorFacts.

Variable codeFrameColumns :
  jsstring -> LineColumnPosition -> bool -> jsstring.

(** The state of the object after a sequence of operations: [message] and
    [fileName] are the last ones written, the frames are untouched. *)
Lemma perform_all_state (ops : list operation) :
  forall this : JSONError,
    let final := fst (perform_all this ops) in
    base_message final = last_message ops (base_message this) /\
    fileName final = last_fileName ops (fileName this) /\
    codeFrame final = codeFrame this /\
    rawCodeFrame final = rawCodeFrame this /\
    name final = name this.
Proof.
  induction ops as [|op ops IH]; intros this; [now cbn|].
  cbn [perform_all].
  destruct (perform this op) as [this' r] eqn:Hp.
  specialize (IH this').
  destruct (perform_all this' ops) as [final reads]. cbn [fst] in *.
  destruct op; cbn in Hp; injection Hp as <- <-; cbn in IH |- *;
    exact IH.
Qed.

(** A read after a sequence of operations returns the message of the
    object as it then is. *)
Lemma perform_all_then_read (ops : list operation) :
  forall this : JSONError,
    snd (perform_all this (ops ++ [ReadMessage]))
    = snd (perform_all this ops)
        ++ [get_message (fst (perform_all this ops))].
Proof.
  induction ops as [|op ops IH]; intros this; [reflexivity|].
  cbn [app perform_all].
  destruct (perform this op) as [this' r].
  specialize (IH this').
  destruct (perform_all this' (ops ++ [ReadMessage])) as [f1 r1].
  destruct (perform_all this' ops) as [f2 r2].
  cbn [fst snd] in *. rewrite IH. now destruct r.
Qed.

(** C4: a read of [message], after any sequence of reads and writes of
    [message] and writes of [fileName] on a constructed [JSONError],
    returns the base message then in force, followed by " in <fileName>"
    for the file name then in force when it is a non-empty string,
    followed by two line feeds, the highlighted code frame and a line feed
    when the object has a (non-empty) code frame.  In particular a file
    name written after construction shows in the reads that follow. *)
Theorem message_recomputed_on_read (message : jsstring)
    (jsonString : option jsstring) (location : option LineColumnPosition)
    (ops : list operation) :
  let this := new_JSONError codeFrameColumns message jsonString location in
  let frameInfo :=
    match jsonString, location with
    | Some s, Some loc =>
        if truthy s && truthy (codeFrameColumns s loc true)
        then [10%N; 10%N] ++ codeFrameColumns s loc true ++ [10%N]
        else []
    | _, _ => []
    end in
  snd (perform_all this (ops ++ [ReadMessage]))
  = snd (perform_all this ops)
      ++ [last_message ops message
            ++ match last_fileName ops None with
               | Some f => if truthy f then lit " in " ++ f else []
               | None => []
               end
            ++ frameInfo] /\
  get_message this = message ++ frameInfo /\
  forall f, f <> [] ->
            get_message (set_fileName this (Some f))
            = message ++ lit " in " ++ f ++ frameInfo.
Proof.
  intros this frameInfo.
  assert (Hframe :
    match codeFrame this with
    | Some c => if truthy c then [10%N; 10%N] ++ c ++ [10%N] else []
    | None => []
    end = frameInfo).
  { subst this frameInfo. unfold new_JSONError, generateCodeFrame.
    destruct jsonString as [s|]; [|reflexivity].
    destruct location as [loc|]; [|reflexivity].
    destruct (truthy s); reflexivity. }
  assert (Hbase : base_message this = message /\ fileName this = None).
  { subst this. unfold new_JSONError.
    destruct jsonString as [s|]; [|now split].
    destruct location as [loc|]; [|now split].
    destruct (truthy s); now split. }
  destruct Hbase as [Hb Hf]. repeat split.
  - rewrite perform_all_then_read. f_equal. f_equal.
    destruct (perform_all_state ops this) as (E1 & E2 & E3 & _).
    unfold get_message. rewrite E1, E2, E3, Hb, Hf, Hframe. reflexivity.
  - unfold get_message. rewrite Hb, Hf, Hframe. reflexivity.
  - intros f Hne. destruct f as [|c f]; [contradiction|].
    unfold get_message, set_fileName.
    cbn [fileName codeFrame base_message truthy].
    rewrite Hb, Hframe. now rewrite <- !app_assoc.
Qed.

(** C9: in a constructed [JSONError], [codeFrame] is defined exactly when
    [rawCodeFrame] is, both exactly when the constructor received a
    non-empty source string and a location; and no operation open to
    client code changes either of them. *)
Theorem frames_invariant (message : jsstring)
    (jsonString : option jsstring)
    (location : option LineColumnPosition) :
  let this := new_JSONError codeFrameColumns message jsonString location in
  (codeFrame this <> None <-> rawCodeFrame this <> None) /\
  (codeFrame this <> None <->
   exists s loc, jsonString = Some s /\ s <> [] /\ location = Some loc) /\
  forall ops,
    codeFrame (fst (perform_all this ops)) = codeFrame this /\
    rawCodeFrame (fst (perform_all this ops)) = rawCodeFrame this.
Proof.
  intros this. repeat split.
  - subst this. unfold new_JSONError.
    destruct jsonString as [[|c s]|], location as [loc|]; cbn; congruence.
  - subst this. unfold new_JSONError.
    destruct jsonString as [[|c s]|], location as [loc|]; cbn; congruence.
  - subst this. unfold new_JSONError.
    destruct jsonString as [[|c s]|], location as [loc|]; cbn;
      try congruence.
    intros _. exists (c :: s), loc. repeat split. discriminate.
  - intros (s & loc & -> & Hs & ->). subst this. unfold new_JSONError.
    destruct s; [contradiction|]. cbn. discriminate.
  - now destruct (perform_all_state ops this) as (_ & _ & E & _).
  - now destruct (perform_all_state ops this) as (_ & _ & _ & E & _).
Qed.

End JSONErrorFacts.

(** ** The message enhancer *)

Section EnhancerFacts.
Import TokenFacts HexFacts.

Lemma is_dot_not_terminator (X : char16) :
  is_line_terminator X = false -> is_dot X = true.
Proof. unfold is_dot. now intros ->. Qed.

Lemma getCodePoint_single (X : char16) :
  getCodePoint [X] = lit "\u{" ++ toString16 X ++ lit "}".
Proof. unfold getCodePoint. now rewrite codePointAt_single. Qed.

Lemma rendered_token_code_point (X : char16) :
  rendered_token X (toString16 X)
  = [34%N; X; 34%N] ++ lit "(" ++ getCodePoint [X] ++ lit ")".
Proof.
  rewrite getCodePoint_single. unfold rendered_token.
  generalize (toString16 X). intros h. cbn. now rewrite <- !app_assoc.
Qed.

(** X13: the enhancer by cases, for a token of one code unit.  A message
    that begins with "Unexpected token " followed by a code unit [X] that is
    no line terminator, in single quotes or, when the message does not read
    that way, bare, is rewritten to hold [X] in double quotes followed by
    its code point, as [getCodePoint] renders it, in parentheses, the rest
    being kept; a message that does not begin with "Unexpected token "
    followed by a code unit that is no line terminator is returned
    unchanged. *)
Theorem addCodePointToUnexpectedToken_cases (message : jsstring) :
  (forall X rest,
     is_line_terminator X = false ->
     message = lit "Unexpected token " ++ 39%N :: X :: 39%N :: rest ->
     addCodePointToUnexpectedToken message
     = lit "Unexpected token "
         ++ ([34%N; X; 34%N] ++ lit "(" ++ getCodePoint [X] ++ lit ")")
         ++ rest) /\
  (forall X rest,
     is_line_terminator X = false ->
     message = lit "Unexpected token " ++ X :: rest ->
     (X = 39%N -> forall Y rest',
        rest = Y :: 39%N :: rest' -> is_line_terminator Y = true) ->
     addCodePointToUnexpectedToken message
     = lit "Unexpected token "
         ++ ([34%N; X; 34%N] ++ lit "(" ++ getCodePoint [X] ++ lit ")")
         ++ rest) /\
  ((forall X rest,
      message = lit "Unexpected token " ++ X :: rest ->
      is_line_terminator X = true) ->
   addCodePointToUnexpectedToken message = message) /\
  (forall X, getCodePoint [X] = lit "\u{" ++ toString16 X ++ lit "}").
Proof.
  repeat split.
  - intros X rest HX ->. rewrite <- rendered_token_code_point.
    apply enhance_quoted. now apply is_dot_not_terminator.
  - intros X rest HX -> Hq. rewrite <- rendered_token_code_point.
    apply enhance_bare; [now apply is_dot_not_terminator|].
    intros E Y rest' Er. unfold is_dot. now rewrite (Hq E Y rest' Er).
  - intros H.
    destruct (strip_prefix (lit "Unexpected token ") message)
      as [a|] eqn:Hp; [|now apply enhance_no_prefix].
    apply strip_prefix_Some in Hp. subst message.
    destruct a as [|X rest].
    + rewrite app_nil_r. apply enhance_no_token.
    + apply enhance_terminator. unfold is_dot.
      now rewrite (H X rest eq_refl).
  - apply getCodePoint_single.
Qed.

(** X14: what the enhancer writes for a token of one code unit.  For a
    message that begins with "Unexpected token " followed by a code unit [X]
    that is no line terminator, in single quotes or, when the message does
    not read that way, bare, the enhanced message has, in place of the token
    and its quotes, [X] in double quotes followed by "(\u{h})", where [h] is
    the hexadecimal numeral of [X], in lowercase digits without padding, [X]
    being the code point that [codePointAt] finds in the token; a message
    that does not start with "Unexpected token " is returned unchanged,
    wherever else it holds these words. *)
Theorem unexpected_token_rendering :
  (forall X rest,
     is_line_terminator X = false ->
     exists h,
       codePointAt [X] 0 = Some X /\
       lowercase_unpadded_hex h X /\
       addCodePointToUnexpectedToken
         (lit "Unexpected token " ++ 39%N :: X :: 39%N :: rest)
       = lit "Unexpected token " ++ rendered_token X h ++ rest /\
       ((X = 39%N -> forall Y rest',
           rest = Y :: 39%N :: rest' -> is_line_terminator Y = true) ->
        addCodePointToUnexpectedToken
          (lit "Unexpected token " ++ X :: rest)
        = lit "Unexpected token " ++ rendered_token X h ++ rest)) /\
  (forall message,
     (forall rest, message <> lit "Unexpected token " ++ rest) ->
     addCodePointToUnexpectedToken message = message).
Proof.
  split.
  - intros X rest HX. exists (toString16 X).
    apply is_dot_not_terminator in HX. repeat split.
    + apply codePointAt_single.
    + apply toString16_spec.
    + apply toString16_spec.
    + apply toString16_spec.
    + now apply enhance_quoted.
    + intros Hq. apply enhance_bare; [exact HX|].
      intros E Y rest' Er. unfold is_dot. now rewrite (Hq E Y rest' Er).
  - intros message H. apply enhance_no_prefix.
    destruct (strip_prefix _ message) as [a|] eqn:Hp; [|reflexivity].
    apply strip_prefix_Some in Hp. now destruct (H a).
Qed.

End EnhancerFacts.

(** ** Runs *)

Example exec_location_offset_run :
  option_map
    (fun m => (named_group location_re m "index",
               named_group location_re m "line",
               named_group location_re m "column"))
    (exec location_re (lit "Unexpected token } in JSON at position 8"))
  = Some (Some (lit "8"), None, None).
Proof. vm_compute. reflexivity. Qed.

Example exec_location_line_column_run :
  option_map
    (fun m => (named_group location_re m "index",
               named_group location_re m "line",
               named_group location_re m "column"))
    (exec location_re
       (lit "Expected ',' in JSON at position 15 (line 1 column 16)"))
  = Some (Some (lit "15"), Some (lit "1"), Some (lit "16")).
Proof. vm_compute. reflexivity. Qed.

Example exec_location_trailing_run :
  exec location_re (lit "in JSON at position 15 (line 1 column 16) ") = None.
Proof. vm_compute. reflexivity. Qed.

Example toString16_run :
  toString16 0 = lit "0" /\ toString16 125 = lit "7d" /\
  toString16 8232 = lit "2028" /\ toString16 1114111 = lit "10ffff".
Proof. vm_compute. repeat split. Qed.

Example getCodePoint_pair_run :
  getCodePoint [55357%N; 56832%N] = lit "\u{1f600}" /\
  getCodePoint [55357%N] = lit "\u{d83d}" /\
  getCodePoint [] = lit "\u{0}".
Proof. vm_compute. repeat split. Qed.

Example enhance_bare_run :
  addCodePointToUnexpectedToken
    (lit "Unexpected token } in JSON at position 8")
  = lit "Unexpected token " ++ [34%N; 125%N; 34%N]
      ++ lit "(\u{7d}) in JSON at position 8".
Proof. vm_compute. reflexivity. Qed.

Example enhance_quote_token_run :
  addCodePointToUnexpectedToken (lit "Unexpected token ''' in JSON")
  = lit "Unexpected token " ++ [34%N; 39%N; 34%N]
      ++ lit "(\u{27}) in JSON".
Proof. vm_compute. reflexivity. Qed.

Example enhance_elsewhere_run :
  addCodePointToUnexpectedToken (lit "Error: Unexpected token } in JSON")
  = lit "Error: Unexpected token } in JSON".
Proof. vm_compute. reflexivity. Qed.

(** [Number] on runs of digits: exact up to 2^53, rounded to the nearest
    double beyond, to the even mantissa from half way, [Infinity] from 309
    digits on. *)
Example Number_run :
  Number (Some (lit "0042")) = Int 42 /\
  Number (Some (lit "9007199254740992")) = Int 9007199254740992 /\
  Number (Some (lit "9007199254740993")) = Int 9007199254740992 /\
  Number (Some (lit "9007199254740995")) = Int 9007199254740996 /\
  Number (Some (lit "18014398509481985")) = Int 18014398509481984 /\
  Number (Some (lit "18014398509481987")) = Int 18014398509481988 /\
  match Number (Some (repeat 57%N 308)) with Int _ => True | _ => False end /\
  Number (Some (repeat 57%N 309)) = Infinity /\
  Number (Some []) = Int 0 /\
  Number None = NaN.
Proof. vm_compute. repeat split. Qed.

Example to_double_run :
  to_double (2 ^ 1024 - 2 ^ 970 - 1) = Int ((2 ^ 53 - 1) * 2 ^ 971) /\
  to_double (2 ^ 1024 - 2 ^ 970) = Infinity /\
  to_double (- (2 ^ 1024)) = NegInfinity /\
  add1 (Int 9007199254740992) = Int 9007199254740992 /\
  add1 (Int 3) = Int 4 /\
  add1 (Int (-1)) = Int 0.
Proof. vm_compute. repeat split. Qed.

(** An offset before the end of the text is resolved as it is; the offset
    that is the length of the text is resolved at the last index, and the
    column is moved by one. *)
Example getErrorLocation_run :
  getErrorLocation (ReviverCall := nat) Strict.indexToPosition (lit "[1,]")
    (lit "Unexpected token ] in JSON at position 3")
  = ([IndexToPositionCalled (lit "[1,]") (Int 3)],
     Normal (Some {| line := Int 1; column := Int 4 |})) /\
  getErrorLocation (ReviverCall := nat) Strict.indexToPosition (lit "[1,")
    (lit "Unexpected end of JSON input in JSON at position 3")
  = ([IndexToPositionCalled (lit "[1,") (Int 2)],
     Normal (Some {| line := Int 1; column := Int 4 |})) /\
  getErrorLocation (ReviverCall := nat) Strict.indexToPosition (lit "[1,")
    (lit "Unexpected token ] in JSON at position 7")
  = ([IndexToPositionCalled (lit "[1,") (Int 7)],
     Throw (ForeignValue (ErrorValue (lit "Index out of bounds")))).
Proof. vm_compute. repeat split. Qed.

(** A token beyond U+FFFF is two code units, and the pattern takes one: the
    bare token is cut after its high surrogate, and of the quoted token the
    opening quote is taken. *)
Example enhance_astral_run :
  addCodePointToUnexpectedToken
    (lit "Unexpected token " ++ 55357%N :: 56832%N
       :: lit " in JSON at position 0")
  = lit "Unexpected token " ++ [34%N; 55357%N; 34%N] ++ lit "(\u{d83d})"
      ++ 56832%N :: lit " in JSON at position 0" /\
  addCodePointToUnexpectedToken
    (lit "Unexpected token " ++ 39%N :: 55357%N :: 56832%N :: 39%N
       :: lit " is not valid JSON")
  = lit "Unexpected token " ++ [34%N; 39%N; 34%N] ++ lit "(\u{27})"
      ++ 55357%N :: 56832%N :: 39%N :: lit " is not valid JSON".
Proof. vm_compute. repeat split. Qed.

(** A failing parse from end to end: the offset 3 of the raw message is
    resolved by the converter, the token gets its code point, both frames are
    rendered, and the file name shows in [message]. *)
Example parseJson_run :
  let run :=
    parseJson Sample.error_message Sample.JSON_parse Sample.indexToPosition
      Sample.codeFrameColumns (lit "[1,]") None (Some (lit "a.json")) in
  fst run
  = [GetErrorLocationCalled (lit "[1,]")
       (lit "Unexpected token ] in JSON at position 3");
     IndexToPositionCalled (lit "[1,]") (Int 3);
     JSONErrorConstructed
       (lit "Unexpected token " ++ [34%N; 93%N; 34%N]
          ++ lit "(\u{5d}) in JSON at position 3")
       (lit "[1,]") (Some {| line := Int 1; column := Int 4 |})] /\
  match snd run with
  | Throw (JSONErrorValue jsonError) =>
      codeFrame jsonError = Some (lit "> [1,]") /\
      rawCodeFrame jsonError = Some (lit "[1,]") /\
      get_message jsonError
      = lit "Unexpected token " ++ [34%N; 93%N; 34%N]
          ++ lit "(\u{5d}) in JSON at position 3 in a.json"
          ++ [10%N; 10%N] ++ lit "> [1,]" ++ [10%N]
  | _ => False
  end.
Proof. vm_compute. repeat split. Qed.

(** ** The claims on the sample collaborators *)


Lemma getErrorLocation_offset_sample :
  getErrorLocation (ReviverCall := nat) Sample.indexToPosition (lit "[1,")
    (lit "Unexpected end of input in JSON at position 3")
  = ([IndexToPositionCalled (lit "[1,") (Int 2)],
     Normal (Some {| line := Int 1; column := Int 4 |})).
Proof.
  assert (Hlen : (js_length (lit "[1,") <= 9007199254740991)%Z)
    by (vm_compute; discriminate).
  assert (Hs : offset_shape
                 (lit "Unexpected end of input in JSON at position 3")
                 (lit "3")).
  { split; [split; [discriminate | reflexivity]|].
    exists (lit "Unexpected end of input "). reflexivity. }
  assert (Hn : numeral (lit "3") 3).
  { exists (Decimal.D3 Decimal.Nil). repeat split. discriminate. }
  assert (Hle : (Z.of_N 3 <= js_length (lit "[1,"))%Z)
    by (vm_compute; discriminate).
  destruct (@getErrorLocation_offset nat jsstring nat Sample.indexToPosition
              (lit "[1,")
              (lit "Unexpected end of input in JSON at position 3")
              (lit "3") 3%N Hlen Hs Hn Hle) as (Hc & _ & _ & Hp & _).
  apply injective_projections; cbn [fst snd].
  - exact Hc.
  - apply (Hp (Int 1) 3%Z); [reflexivity | reflexivity | reflexivity].
Defined.

Lemma getErrorLocation_line_column_sample :
  getErrorLocation (ReviverCall := nat) Sample.indexToPosition (lit "[1,]")
    (lit "Unexpected token ] in JSON at position 3 (line 1 column 4)")
  = ([], Normal (Some {| line := Int 1; column := Int 4 |})).
Proof.
  assert (Hs : line_column_shape
                 (lit "Unexpected token ] in JSON at position 3 (line 1 column 4)")
                 (lit "3") (lit "1") (lit "4")).
  { repeat split; try discriminate.
    exists (lit "Unexpected token ] "). reflexivity. }
  assert (Hl : numeral (lit "1") 1).
  { exists (Decimal.D1 Decimal.Nil). repeat split. discriminate. }
  assert (Hc : numeral (lit "4") 4).
  { exists (Decimal.D4 Decimal.Nil). repeat split. discriminate. }
  destruct (@getErrorLocation_line_column nat jsstring nat
              Sample.indexToPosition (lit "[1,]")
              (lit "Unexpected token ] in JSON at position 3 (line 1 column 4)")
              (lit "3") (lit "1") (lit "4") 1%N 4%N Hs Hl Hc)
    as (Hf & Hp & Hpl & Hpc).
  rewrite Hpl in Hp by (vm_compute; discriminate).
  rewrite Hpc in Hp by (vm_compute; discriminate).
  apply injective_projections; cbn [fst snd]; [exact Hf | exact Hp].
Defined.

Lemma message_recomputed_on_read_sample :
  get_message
    (set_fileName
       (new_JSONError Sample.codeFrameColumns (lit "Unexpected token ]")
          (Some (lit "[1,]")) (Some {| line := Int 1; column := Int 4 |}))
       (Some (lit "a.json")))
  = lit "Unexpected token ]" ++ lit " in " ++ lit "a.json"
      ++ [10%N; 10%N] ++ lit "> [1,]" ++ [10%N].
Proof.
  apply (proj2 (proj2
           (@message_recomputed_on_read Sample.codeFrameColumns
              (lit "Unexpected token ]") (Some (lit "[1,]"))
              (Some {| line := Int 1; column := Int 4 |}) []))
           (lit "a.json")).
  discriminate.
Defined.

Lemma no_location_no_frame_sample :
  getErrorLocation (ReviverCall := nat) Sample.indexToPosition []
    (lit "Unexpected end of JSON input") = ([], Normal None) /\
  forall reviver f calls e,
    Sample.JSON_parse [] reviver = (calls, Throw (ErrorValue e)) ->
    Sample.error_message e = lit "Unexpected end of JSON input" ->
    exists log jsonError,
      parseJson Sample.error_message Sample.JSON_parse
        Sample.indexToPosition Sample.codeFrameColumns [] reviver f
      = (log, Throw (JSONErrorValue jsonError)) /\
      base_message jsonError
      = (if truthy [] then
           addCodePointToUnexpectedToken (lit "Unexpected end of JSON input")
         else lit "Unexpected end of JSON input"
                ++ lit " while parsing empty string") /\
      fileName jsonError = f /\
      codeFrame jsonError = None /\
      rawCodeFrame jsonError = None.
Proof.
  apply (@no_location_no_frame unit unit nat jsstring nat
           Sample.error_message Sample.JSON_parse Sample.indexToPosition
           Sample.codeFrameColumns []
           (lit "Unexpected end of JSON input")).
  split.
  - intros offset H.
    destruct (LocationFacts.exec_location_offset H) as (m & Hm & _).
    vm_compute in Hm. discriminate.
  - intros offset l c H.
    destruct (LocationFacts.exec_location_line_column H) as (m & Hm & _).
    vm_compute in Hm. discriminate.
Defined.

Lemma parseJson_empty_string_sample :
  parseJson Sample.error_message Sample.JSON_parse Sample.indexToPosition
    Sample.codeFrameColumns [] None (Some (lit "a.json"))
  = (map ReviverInvoked []
       ++ [JSONErrorConstructed
             (Sample.error_message (lit "Unexpected end of JSON input")
                ++ lit " while parsing empty string") [] None],
     Throw (JSONErrorValue
              {| name := lit "JSONError";
                 fileName := Some (lit "a.json");
                 codeFrame := None; rawCodeFrame := None;
                 base_message :=
                   Sample.error_message (lit "Unexpected end of JSON input")
                     ++ lit " while parsing empty string" |})) /\
  (forall s m,
     ~ In (GetErrorLocationCalled s m)
         (fst (parseJson Sample.error_message Sample.JSON_parse
                 Sample.indexToPosition Sample.codeFrameColumns [] None
                 (Some (lit "a.json"))))) /\
  (forall s i,
     ~ In (IndexToPositionCalled s i)
         (fst (parseJson Sample.error_message Sample.JSON_parse
                 Sample.indexToPosition Sample.codeFrameColumns [] None
                 (Some (lit "a.json"))))).
Proof.
  apply (@parseJson_empty_string unit unit nat jsstring nat
           Sample.error_message Sample.JSON_parse Sample.indexToPosition
           Sample.codeFrameColumns None (Some (lit "a.json")) []
           (lit "Unexpected end of JSON input")).
  reflexivity.
Defined.

Lemma parseJson_success_sample :
  parseJson Sample.error_message Sample.JSON_parse Sample.indexToPosition
    Sample.codeFrameColumns (lit "1") None None
  = (map ReviverInvoked [0], Normal tt) /\
  forall m s l,
    ~ In (JSONErrorConstructed m s l)
        (fst (parseJson Sample.error_message Sample.JSON_parse
                Sample.indexToPosition Sample.codeFrameColumns (lit "1")
                None None)).
Proof.
  apply (@parseJson_success unit unit nat jsstring nat
           Sample.error_message Sample.JSON_parse Sample.indexToPosition
           Sample.codeFrameColumns (lit "1") None None [0] tt).
  reflexivity.
Defined.

Lemma addCodePointToUnexpectedToken_cases_sample :
  addCodePointToUnexpectedToken
    (lit "Unexpected token '}', is not valid JSON")
  = lit "Unexpected token "
      ++ ([34%N; 125%N; 34%N] ++ lit "(" ++ getCodePoint [125%N] ++ lit ")")
      ++ lit ", is not valid JSON".
Proof.
  apply (proj1 (addCodePointToUnexpectedToken_cases
                  (lit "Unexpected token '}', is not valid JSON"))
           125%N (lit ", is not valid JSON")); reflexivity.
Defined.

Lemma unexpected_token_rendering_sample :
  exists h,
    codePointAt [125%N] 0 = Some 125%N /\
    lowercase_unpadded_hex h 125%N /\
    addCodePointToUnexpectedToken
      (lit "Unexpected token " ++ 39%N :: 125%N :: 39%N
         :: lit " in JSON at position 8")
    = lit "Unexpected token " ++ rendered_token 125%N h
        ++ lit " in JSON at position 8" /\
    ((125%N = 39%N -> forall Y rest',
        lit " in JSON at position 8" = Y :: 39%N :: rest' ->
        is_line_terminator Y = true) ->
     addCodePointToUnexpectedToken
       (lit "Unexpected token " ++ 125%N :: lit " in JSON at position 8")
     = lit "Unexpected token " ++ rendered_token 125%N h
         ++ lit " in JSON at position 8").
Proof.
  apply (proj1 unexpected_token_rendering 125%N
           (lit " in JSON at position 8")).
  reflexivity.
Defined.

(** ** Where the claims as first stated fail *)


(** C3, as stated, fails beyond 2^53: the message carries the line
    9007199254740993 (2^53 + 1), and the line returned is 9007199254740992,
    the nearest number. *)
Lemma line_beyond_2_53_is_rounded :
  numeral (lit "9007199254740993") 9007199254740993 /\
  getErrorLocation (ReviverCall := nat) Sample.indexToPosition (lit "[1,]")
    (lit "Unexpected token ] in JSON at position 3 (line 9007199254740993 column 4)")
  = ([], Normal (Some {| line := Int 9007199254740992; column := Int 4 |})) /\
  Int 9007199254740992 <> Int (Z.of_N 9007199254740993).
Proof.
  split; [|split].
  - exists (N.to_uint 9007199254740993). repeat split.
    vm_compute. discriminate.
  - vm_compute. reflexivity.
  - discriminate.
Qed.

(** ** Where the enhancer misses the token *)

(** C6, on a line separator as the token: the message "Unexpected token
    <LS> in JSON at position 0" has the shape, with the unquoted character
    U+2028, and the enhancer returns it unchanged, without the code point:
    the [.] of the pattern, without the [s] flag, matches no line
    terminator. *)
Lemma line_separator_token_not_enhanced :
  addCodePointToUnexpectedToken
    (lit "Unexpected token " ++ 8232%N :: lit " in JSON at position 0")
  = lit "Unexpected token " ++ 8232%N :: lit " in JSON at position 0" /\
  includes
    (addCodePointToUnexpectedToken
       (lit "Unexpected token " ++ 8232%N :: lit " in JSON at position 0"))
    (getCodePoint [8232%N]) = false.
Proof. split; vm_compute; reflexivity. Qed.

(** C10, on a line separator in single quotes: in the message of V8 for the
    text U+2028, "Unexpected token '<LS>', <LS> is not valid JSON" with the
    second <LS> in double quotes, the character in matching quotes is
    U+2028, and the enhanced message renders the opening quote (U+0027) as
    the token and keeps the separator and the closing quote. *)
Lemma quoted_line_separator_renders_quote :
  addCodePointToUnexpectedToken
    (lit "Unexpected token " ++ 39%N :: 8232%N :: 39%N
       :: lit ", " ++ 34%N :: 8232%N :: 34%N :: lit " is not valid JSON")
  = lit "Unexpected token " ++ rendered_token 39%N (lit "27")
      ++ 8232%N :: 39%N
      :: lit ", " ++ 34%N :: 8232%N :: 34%N :: lit " is not valid JSON" /\
  addCodePointToUnexpectedToken
    (lit "Unexpected token " ++ 39%N :: 8232%N :: 39%N
       :: lit ", " ++ 34%N :: 8232%N :: 34%N :: lit " is not valid JSON")
  <> lit "Unexpected token " ++ rendered_token 8232%N (lit "2028")
       ++ lit ", " ++ 34%N :: 8232%N :: 34%N :: lit " is not valid JSON".
Proof.
  split; [vm_compute; reflexivity|].
  intros E. vm_compute in E. discriminate E.
Qed.

(** * Further properties of the module *)

Lemma decimal_value_from_nonneg (s : jsstring) (a : Z) :
  forallb is_digit s = true -> (0 <= a)%Z ->
  (0 <= fold_left (fun acc c => (10 * acc + (Z.of_N c - 48))%Z) s a)%Z.
Proof.
  revert a; induction s as [|c s IH]; intros a H Ha; cbn [fold_left];
    [exact Ha|].
  cbn [forallb] in H. apply andb_prop in H as [Hc H]. apply IH; [exact H|].
  unfold is_digit in Hc. apply andb_prop in Hc as [Hc _].
  apply N.leb_le in Hc. lia.
Qed.

Lemma decimal_value_nonneg (s : jsstring) :
  digits s -> (0 <= decimal_value s)%Z.
Proof.
  intros [_ H]. unfold decimal_value.
  now apply decimal_value_from_nonneg.
Qed.

Lemma offset_shape_prefix (pre message offset : jsstring) :
  offset_shape message offset -> offset_shape (pre ++ message) offset.
Proof.
  intros (HD & p & ->). split; [exact HD|].
  exists (pre ++ p). now rewrite <- app_assoc.
Qed.

Lemma line_column_shape_prefix (pre message offset l c : jsstring) :
  line_column_shape message offset l c ->
  line_column_shape (pre ++ message) offset l c.
Proof.
  intros (HD & HL & HC & p & ->). repeat split; try apply HD;
    try apply HL; try apply HC.
  exists (pre ++ p). now rewrite <- app_assoc.
Qed.

(** Every match of the location pattern: the offset took part, and the line
    and the column took part together or not at all. *)
Lemma location_match_groups (message : jsstring) (m : match_result) :
  exec location_re message = Some m ->
  exists D, digits D /\
    ((offset_shape message D /\
      captures (m_end m) = [Some D; None; None]) \/
     (exists L C, line_column_shape message D L C /\
        captures (m_end m) = [Some D; Some L; Some C])).
Proof.
  intros Hm.
  apply ExecFacts.exec_from_sound in Hm as (a1 & a2 & -> & Hs & Hr).
  rewrite Hs in Hr.
  change (pattern location_re) with location_pattern in Hr.
  change (repeat None (ncaptures location_re))
    with [@None jsstring; None; None] in Hr.
  apply LocationFacts.location_pattern_sound in Hr
    as (D & HD & [(-> & Hc) | (L & C & HL & HC & -> & Hc)]).
  - exists D. split; [exact HD|]. left. split; [|exact Hc].
    split; [exact HD|]. now exists a1.
  - exists D. split; [exact HD|]. right. exists L, C. split; [|exact Hc].
    repeat split; try apply HD; try apply HL; try apply HC. now exists a1.
Qed.

Section PipelineExtras.

Variables JsonValue Reviver ReviverCall ErrorObject NonError : Type.
Variable error_message : ErrorObject -> jsstring.
Variable JSON_parse :
  jsstring -> option Reviver ->
  list ReviverCall * completion (foreign ErrorObject NonError) JsonValue.
Variable indexToPosition :
  jsstring -> number -> bool ->
  completion (foreign ErrorObject NonError) LineColumnPosition.
Variable codeFrameColumns :
  jsstring -> LineColumnPosition -> bool -> jsstring.

(** [getErrorLocation], whatever the message: no call, or one call of the
    converter, at the last index or at the number the offset converts to. *)
Lemma getErrorLocation_record (text message : jsstring) :
  fst (getErrorLocation (ReviverCall := ReviverCall) indexToPosition
         text message) = [] \/
  exists D, offset_shape message D /\
    fst (getErrorLocation (ReviverCall := ReviverCall) indexToPosition
           text message)
    = [IndexToPositionCalled text
         (if strict_equal (Number (Some D)) (Int (js_length text))
          then Int (js_length text - 1) else Number (Some D))].
Proof.
  destruct (exec location_re message) as [m|] eqn:Hm.
  - destruct (@location_match_groups _ _ Hm)
      as (D & HD & [(Ho & _) | (L & C & Hlc & _)]).
    + right. exists D. split; [exact Ho|].
      rewrite (@getErrorLocation_of_offset ReviverCall _ _ indexToPosition
                 text _ _ Ho).
      destruct (strict_equal _ _); unfold call_indexToPosition, bind, ret;
        now destruct (indexToPosition text _ true).
    + left.
      now rewrite (@getErrorLocation_of_line_column ReviverCall _ _
                     indexToPosition text _ _ _ _ Hlc).
  - left. unfold getErrorLocation. now rewrite Hm.
Qed.

(** X1: [getErrorLocation] never hands [NaN] or another text to the position
    converter: every call it records is on the text it was given, at an
    index that is [Infinity] or an integer; the integer is at least 0,
    except that it is -1 in some calls on the empty text, and only on
    it. *)
Theorem getErrorLocation_index_range (text message s : jsstring)
    (i : number) :
  In (IndexToPositionCalled s i)
     (fst (getErrorLocation (ReviverCall := ReviverCall) indexToPosition
             text message)) ->
  s = text /\
  (i = Infinity \/
   exists z, i = Int z /\ (-1 <= z)%Z /\ (z = (-1)%Z -> text = [])).
Proof.
  intros Hin.
  destruct (getErrorLocation_record text message) as [E | (D & Ho & E)];
    rewrite E in Hin; [contradiction|].
  destruct Hin as [Hin|[]]. injection Hin as <- <-. split; [reflexivity|].
  destruct (strict_equal _ _).
  - right. eexists. split; [reflexivity|]. unfold js_length. split; [lia|].
    intros Hz. destruct text; [reflexivity|]. cbn [length] in Hz. lia.
  - pose proof (proj1 Ho) as HD. rewrite (proj2 HD).
    destruct (NumberFacts.to_double_nonneg (decimal_value_nonneg HD))
      as [-> | (v & -> & Hv & _)]; [now left|].
    right. exists v. repeat split; lia.
Qed.

(** [getErrorLocation] throws nothing of its own: what it throws, the
    converter threw. *)
Lemma getErrorLocation_throws (text message : jsstring)
    (t : thrown ErrorObject NonError) :
  snd (getErrorLocation (ReviverCall := ReviverCall) indexToPosition
         text message) = Throw t ->
  exists ft, t = ForeignValue ft.
Proof.
  unfold getErrorLocation.
  destruct (exec location_re message) as [m|]; [|discriminate].
  destruct (_ && _); [discriminate|].
  destruct (strict_equal _ _);
    unfold call_indexToPosition, bind, ret, from_collaborator;
    destruct (indexToPosition text _ true) as [p|ft]; cbn [snd];
    intros E; try discriminate; injection E as <-; eauto.
Qed.

Lemma parseJson_of_value (text : jsstring) (reviver : option Reviver)
    (f : option jsstring) (calls : list ReviverCall) (v : JsonValue) :
  JSON_parse text reviver = (calls, Normal v) ->
  parseJson error_message JSON_parse indexToPosition codeFrameColumns
    text reviver f
  = (map ReviverInvoked calls, Normal v).
Proof.
  intros H. unfold parseJson, call_JSON_parse. rewrite H.
  cbn [from_collaborator bind try_catch ret throw].
  now rewrite !app_nil_r.
Qed.

Lemma parseJson_of_other (text : jsstring) (reviver : option Reviver)
    (f : option jsstring) (calls : list ReviverCall) (o : NonError) :
  JSON_parse text reviver = (calls, Throw (OtherValue o)) ->
  parseJson error_message JSON_parse indexToPosition codeFrameColumns
    text reviver f
  = (map ReviverInvoked calls, Throw (ForeignValue (OtherValue o))).
Proof.
  intros H. unfold parseJson, call_JSON_parse. rewrite H.
  cbn [from_collaborator bind try_catch ret throw].
  now rewrite app_nil_r.
Qed.

(** [parseJson] after an [Error] of [JSON.parse], by the completion of the
    location lookup. *)
Lemma parseJson_of_error_cases (text : jsstring) (reviver : option Reviver)
    (f : option jsstring) (calls : list ReviverCall) (e : ErrorObject) :
  JSON_parse text reviver = (calls, Throw (ErrorValue e)) ->
  let raw := error_message e in
  let lookup :=
    getErrorLocation (ReviverCall := ReviverCall) indexToPosition
      text raw in
  parseJson error_message JSON_parse indexToPosition codeFrameColumns
    text reviver f
  = match text with
    | [] =>
        (map ReviverInvoked calls
           ++ [JSONErrorConstructed
                 (raw ++ lit " while parsing empty string") [] None],
         Throw (JSONErrorValue
                  (set_fileName
                     (new_JSONError codeFrameColumns
                        (raw ++ lit " while parsing empty string")
                        (Some []) None) f)))
    | _ :: _ =>
        match snd lookup with
        | Normal location =>
            (map ReviverInvoked calls
               ++ GetErrorLocationCalled text raw :: fst lookup
               ++ [JSONErrorConstructed
                     (addCodePointToUnexpectedToken raw) text location],
             Throw (JSONErrorValue
                      (set_fileName
                         (new_JSONError codeFrameColumns
                            (addCodePointToUnexpectedToken raw)
                            (Some text) location) f)))
        | Throw t =>
            (map ReviverInvoked calls
               ++ GetErrorLocationCalled text raw :: fst lookup,
             Throw t)
        end
    end.
Proof.
  intros H raw lookup. rewrite (@parseJson_of_error _ _ _ _ _ error_message JSON_parse
             indexToPosition codeFrameColumns text reviver f calls e H).
  subst raw lookup. destruct text as [|c text].
  - reflexivity.
  - cbn [truthy].
    destruct (getErrorLocation indexToPosition (c :: text)
                (error_message e)) as [l [o|t]];
      cbn [bind record ret throw fst snd app];
      rewrite <- ?app_assoc; reflexivity.
Qed.

(** X2: [parseJson] returns a value exactly when [JSON.parse] does, and
    then the same one: no failure of the parser, of a reviver or of the
    position converter is ever turned into a result. *)
Theorem parseJson_returns_iff (text : jsstring) (reviver : option Reviver)
    (f : option jsstring) (v : JsonValue) :
  snd (parseJson error_message JSON_parse indexToPosition codeFrameColumns
         text reviver f) = Normal v
  <-> snd (JSON_parse text reviver) = Normal v.
Proof.
  destruct (JSON_parse text reviver) as [calls [w | [e | o]]] eqn:H.
  - rewrite (parseJson_of_value f H). cbn [snd]. split; congruence.
  - rewrite (parseJson_of_error_cases f H). cbn [snd].
    destruct text as [|c text]; [split; discriminate|].
    destruct (snd (getErrorLocation indexToPosition (c :: text)
                     (error_message e))); cbn [snd]; split; discriminate.
  - rewrite (parseJson_of_other f H). cbn [snd]. split; discriminate.
Qed.

(** X3: a failure of the position converter escapes [parseJson] as it is.
    For a non-empty text (of at most 2^53 - 1 code units, as every string
    is) and an [Error] of [JSON.parse] whose message
    carries an offset, the numeral of [n], the converter is asked, without
    any bounds check, at an index that is: for [n] up to 2^53, [n] itself,
    or the last index when [n] is the length of the text; for [n] beyond
    2^53, [Infinity] or an integer from 2^53 on.  If the converter throws,
    [parseJson] throws what it threw, and no [JSONError] is constructed. *)
Theorem parseJson_converter_failure (text : jsstring)
    (reviver : option Reviver) (f : option jsstring)
    (calls : list ReviverCall) (e : ErrorObject) (offset : jsstring)
    (n : N) :
  text <> [] ->
  (js_length text <= 9007199254740991)%Z ->
  JSON_parse text reviver = (calls, Throw (ErrorValue e)) ->
  offset_shape (error_message e) offset ->
  numeral offset n ->
  exists index,
    ((Z.of_N n <= 9007199254740992)%Z ->
     index = Int (if (Z.of_N n =? js_length text)%Z
                  then (js_length text - 1)%Z else Z.of_N n)) /\
    ((9007199254740992 < Z.of_N n)%Z ->
     index = Infinity \/
     exists z, index = Int z /\ (9007199254740992 <= z)%Z) /\
    forall t,
      indexToPosition text index true = Throw t ->
      parseJson error_message JSON_parse indexToPosition codeFrameColumns
        text reviver f
      = (map ReviverInvoked calls
           ++ [GetErrorLocationCalled text (error_message e);
               IndexToPositionCalled text index],
         Throw (ForeignValue t)).
Proof.
  intros Hne Hlen H Ho Hn.
  exists (if strict_equal (Number (Some offset)) (Int (js_length text))
          then Int (js_length text - 1) else Number (Some offset)).
  split; [|split].
  - intros Hb.
    rewrite (NumberFacts.Number_numeral_exact Hn) by exact Hb.
    cbn [strict_equal]. now destruct (Z.eqb _ _).
  - intros Hb. rewrite (NumberFacts.Number_numeral Hn).
    destruct (NumberFacts.to_double_nonneg (N2Z.is_nonneg n))
      as [-> | (v & -> & _ & _ & Hv)].
    + now left.
    + specialize (Hv Hb). unfold two53 in Hv. cbn [strict_equal].
      destruct (Z.eqb_spec v (js_length text)) as [E|_]; [lia|].
      right. exists v. now split.
  - intros t Ht. rewrite (parseJson_of_error_cases f H).
    destruct text as [|c text]; [contradiction|].
    rewrite (@getErrorLocation_of_offset ReviverCall _ _ indexToPosition
               (c :: text) _ _ Ho).
    destruct (strict_equal _ _);
      unfold call_indexToPosition, bind, ret; rewrite Ht; reflexivity.
Qed.

(** X4: the file name labels the [JSONError] and does nothing else: the call
    record of [parseJson] does not depend on it, and its completion is the
    one for no file name, with the field [fileName] of a thrown [JSONError]
    set to it. *)
Theorem parseJson_fileName_labels (text : jsstring)
    (reviver : option Reviver) (f : option jsstring) :
  parseJson error_message JSON_parse indexToPosition codeFrameColumns
    text reviver f
  = (fst (parseJson error_message JSON_parse indexToPosition
            codeFrameColumns text reviver None),
     match snd (parseJson error_message JSON_parse indexToPosition
                  codeFrameColumns text reviver None) with
     | Throw (JSONErrorValue jsonError) =>
         Throw (JSONErrorValue (set_fileName jsonError f))
     | c => c
     end).
Proof.
  destruct (JSON_parse text reviver) as [calls [w | [e | o]]] eqn:H.
  - now rewrite !(parseJson_of_value _ H).
  - rewrite !(parseJson_of_error_cases _ H).
    destruct text as [|c text]; [reflexivity|].
    destruct (snd (getErrorLocation indexToPosition (c :: text)
                     (error_message e))) as [loc|t] eqn:Hl;
      [reflexivity|].
    destruct (getErrorLocation_throws _ _ Hl) as [ft ->]. reflexivity.
  - now rewrite !(parseJson_of_other _ H).
Qed.

(** X5: the whole diagnostic for a message with a line and a column.  For a
    non-empty text and an [Error] of [JSON.parse] whose message carries a
    line and a column, the numerals of [nl] and [nc], both at most 2^53,
    [parseJson] throws a [JSONError] named "JSONError", with the enhanced
    message as base message, the file name given, and the highlighted and
    the raw frame rendered on the text at line [nl] and column [nc]; the
    position converter is not called. *)
Theorem parseJson_line_column_diagnostic (text : jsstring)
    (reviver : option Reviver) (f : option jsstring)
    (calls : list ReviverCall) (e : ErrorObject) (offset l c : jsstring)
    (nl nc : N) :
  text <> [] ->
  JSON_parse text reviver = (calls, Throw (ErrorValue e)) ->
  line_column_shape (error_message e) offset l c ->
  numeral l nl ->
  numeral c nc ->
  (Z.of_N nl <= 9007199254740992)%Z ->
  (Z.of_N nc <= 9007199254740992)%Z ->
  let location :=
    {| line := Int (Z.of_N nl); column := Int (Z.of_N nc) |} in
  let message := addCodePointToUnexpectedToken (error_message e) in
  parseJson error_message JSON_parse indexToPosition codeFrameColumns
    text reviver f
  = (map ReviverInvoked calls
       ++ [GetErrorLocationCalled text (error_message e);
           JSONErrorConstructed message text (Some location)],
     Throw (JSONErrorValue
              {| name := lit "JSONError";
                 fileName := f;
                 codeFrame := Some (codeFrameColumns text location true);
                 rawCodeFrame := Some (codeFrameColumns text location false);
                 base_message := message |})).
Proof.
  intros Hne H Hs Hl Hc Hbl Hbc location message.
  rewrite (parseJson_of_error_cases f H).
  destruct text as [|c0 text]; [contradiction|].
  rewrite (@getErrorLocation_of_line_column ReviverCall _ _
             indexToPosition (c0 :: text) _ _ _ _ Hs).
  rewrite (NumberFacts.Number_numeral_exact Hl Hbl).
  now rewrite (NumberFacts.Number_numeral_exact Hc Hbc).
Qed.

(** The location is read at the end of the message: what comes before a
    message that has one of the two shapes does not matter. *)
Lemma getErrorLocation_suffix (text pre message : jsstring) :
  (exists offset, offset_shape message offset) \/
  (exists offset l c, line_column_shape message offset l c) ->
  getErrorLocation (ReviverCall := ReviverCall) indexToPosition
    text (pre ++ message)
  = getErrorLocation (ReviverCall := ReviverCall) indexToPosition
      text message.
Proof.
  intros [(o & H) | (o & l & c & H)].
  - rewrite (@getErrorLocation_of_offset ReviverCall _ _ indexToPosition
               text _ _ H).
    now rewrite (@getErrorLocation_of_offset ReviverCall _ _
                   indexToPosition text _ _
                   (offset_shape_prefix pre H)).
  - rewrite (@getErrorLocation_of_line_column ReviverCall _ _
               indexToPosition text _ _ _ _ H).
    now rewrite (@getErrorLocation_of_line_column ReviverCall _ _
                   indexToPosition text _ _ _ _
                   (line_column_shape_prefix pre H)).
Qed.

(** X6: [getErrorLocation] reads the location at the end of the message: for
    a message that ends with an offset, or with an offset, a line and a
    column, whatever text is put in front of it, another location clause
    included, the result and the calls made are the same. *)
Theorem getErrorLocation_reads_the_end (text pre message : jsstring) :
  (exists offset, offset_shape message offset) \/
  (exists offset l c, line_column_shape message offset l c) ->
  getErrorLocation (ReviverCall := ReviverCall) indexToPosition
    text (pre ++ message)
  = getErrorLocation (ReviverCall := ReviverCall) indexToPosition
      text message.
Proof.
  intros [(o & H) | (o & l & c & H)].
  - pose proof (offset_shape_prefix pre H) as Hp.
    rewrite (@getErrorLocation_of_offset ReviverCall _ _ indexToPosition
               text _ _ H).
    now rewrite (@getErrorLocation_of_offset ReviverCall _ _
                   indexToPosition text _ _ Hp).
  - pose proof (line_column_shape_prefix pre H) as Hp.
    rewrite (@getErrorLocation_of_line_column ReviverCall _ _
               indexToPosition text _ _ _ _ H).
    now rewrite (@getErrorLocation_of_line_column ReviverCall _ _
                   indexToPosition text _ _ _ _ Hp).
Qed.

(** X7: enhancing the message does not disturb its location: for a token,
    in single quotes or bare, followed by a rest that ends with a location
    clause, [getErrorLocation] finds in the enhanced message what it finds
    in the raw one. *)
Theorem enhanced_message_keeps_location (text rest : jsstring)
    (X : char16) :
  is_line_terminator X = false ->
  (exists offset, offset_shape rest offset) \/
  (exists offset l c, line_column_shape rest offset l c) ->
  getErrorLocation (ReviverCall := ReviverCall) indexToPosition text
    (addCodePointToUnexpectedToken
       (lit "Unexpected token " ++ 39%N :: X :: 39%N :: rest))
  = getErrorLocation (ReviverCall := ReviverCall) indexToPosition text
      (lit "Unexpected token " ++ 39%N :: X :: 39%N :: rest) /\
  ((X = 39%N -> forall Y rest',
      rest = Y :: 39%N :: rest' -> is_line_terminator Y = true) ->
   getErrorLocation (ReviverCall := ReviverCall) indexToPosition text
     (addCodePointToUnexpectedToken
        (lit "Unexpected token " ++ X :: rest))
   = getErrorLocation (ReviverCall := ReviverCall) indexToPosition text
       (lit "Unexpected token " ++ X :: rest)).
Proof.
  intros HX Hs. apply is_dot_not_terminator in HX. split.
  - rewrite TokenFacts.enhance_quoted by exact HX.
    rewrite (app_assoc (lit "Unexpected token ")).
    rewrite (getErrorLocation_suffix text _ Hs).
    change (lit "Unexpected token " ++ 39%N :: X :: 39%N :: rest)
      with ((lit "Unexpected token " ++ [39%N; X; 39%N]) ++ rest).
    now rewrite (getErrorLocation_suffix text _ Hs).
  - intros Hq.
    rewrite TokenFacts.enhance_bare;
      [|exact HX
       |intros E Y r Er; unfold is_dot; now rewrite (Hq E Y r Er)].
    rewrite (app_assoc (lit "Unexpected token ")).
    rewrite (getErrorLocation_suffix text _ Hs).
    change (lit "Unexpected token " ++ X :: rest)
      with ((lit "Unexpected token " ++ [X]) ++ rest).
    now rewrite (getErrorLocation_suffix text _ Hs).
Qed.

(** X8: every [JSONError] that [parseJson] throws comes from an [Error] of
    [JSON.parse]; it is named "JSONError" and carries the file name given;
    its base message is the raw message, enhanced for a non-empty text and
    followed by " while parsing empty string" for the empty one; and it has
    either no frame at all, or, for a non-empty text, the highlighted and the
    raw frame rendered on that text at one and the same location. *)
Theorem parseJson_diagnostic_invariant (text : jsstring)
    (reviver : option Reviver) (f : option jsstring)
    (jsonError : JSONError) :
  snd (parseJson error_message JSON_parse indexToPosition codeFrameColumns
         text reviver f) = Throw (JSONErrorValue jsonError) ->
  (exists calls e,
     JSON_parse text reviver = (calls, Throw (ErrorValue e)) /\
     base_message jsonError
     = match text with
       | [] => error_message e ++ lit " while parsing empty string"
       | _ :: _ => addCodePointToUnexpectedToken (error_message e)
       end) /\
  name jsonError = lit "JSONError" /\
  fileName jsonError = f /\
  ((codeFrame jsonError = None /\ rawCodeFrame jsonError = None) \/
   (text <> [] /\
    exists location,
      codeFrame jsonError = Some (codeFrameColumns text location true) /\
      rawCodeFrame jsonError
      = Some (codeFrameColumns text location false))).
Proof.
  destruct (JSON_parse text reviver) as [calls [w | [e | o]]] eqn:H.
  - rewrite (parseJson_of_value f H). discriminate.
  - rewrite (parseJson_of_error_cases f H).
    destruct text as [|c text].
    + cbn [snd]. intros E. injection E as <-.
      split; [exists calls, e; now split|]. cbn. auto.
    + destruct (snd (getErrorLocation indexToPosition (c :: text)
                       (error_message e))) as [[loc|]|t] eqn:Hl;
        cbn [snd]; intros E;
        [| |destruct (getErrorLocation_throws _ _ Hl) as [ft ->];
            discriminate];
        injection E as <-;
        (split; [exists calls, e; now split|]); cbn; repeat split.
      * right. split; [discriminate|]. exists loc. now split.
      * now left.
  - rewrite (parseJson_of_other f H). discriminate.
Qed.

End PipelineExtras.

(** ** Further properties of the [JSONError] object *)

Lemma app_eq_self_nil {A : Type} (l x : list A) : l ++ x = l -> x = [].
Proof.
  intros H. apply (app_inv_head l). now rewrite app_nil_r.
Qed.

(** X9: the accessors of [message] are not inverse to each other: writing
    back the message that was read appends the file name and the frame a
    second time, so that the next read returns the same message only when
    the object has no (non-empty) file name and no (non-empty) code frame. *)
Theorem message_write_back (this : JSONError) :
  get_message (set_message this (get_message this))
  = get_message this ++ get_message (set_message this []) /\
  (get_message (set_message this (get_message this)) = get_message this
   <-> truthy_opt (fileName this) = false /\
       truthy_opt (codeFrame this) = false).
Proof.
  destruct this as [n f cf rcf base].
  unfold get_message, set_message.
  cbn [fileName codeFrame base_message truthy_opt].
  split.
  - cbn [app]. now rewrite <- !app_assoc.
  - split.
    + intros E. apply app_eq_self_nil in E.
      apply app_eq_nil in E as [E1 E2].
      destruct f as [[|c f]|]; [| discriminate |];
        (destruct cf as [[|c' cf]|]; [| discriminate |]); now split.
    + intros [E1 E2].
      destruct f as [[|c f]|]; [| discriminate |];
        (destruct cf as [[|c' cf]|]; [| discriminate |]);
        cbn [truthy app]; now rewrite !app_nil_r.
Qed.

(** ** Further properties of the message enhancer *)

(** Either the enhancer leaves the message as it is, or it writes a rendered
    token at index 17. *)
Lemma enhance_classification (message : jsstring) :
  addCodePointToUnexpectedToken message = message \/
  exists X rest,
    addCodePointToUnexpectedToken message
    = lit "Unexpected token " ++ rendered_token X (toString16 X) ++ rest.
Proof.
  destruct (strip_prefix (lit "Unexpected token ") message) as [a|] eqn:Hp;
    [|left; now apply TokenFacts.enhance_no_prefix].
  apply strip_prefix_Some in Hp. subst message.
  destruct a as [|X rest].
  - left. rewrite app_nil_r. apply TokenFacts.enhance_no_token.
  - destruct (is_dot X) eqn:HX;
      [|left; now apply TokenFacts.enhance_terminator].
    right.
    assert (Hbare :
      (X = 39%N -> forall Y rest',
         rest = Y :: 39%N :: rest' -> is_dot Y = false) ->
      exists X0 rest0,
        addCodePointToUnexpectedToken
          (lit "Unexpected token " ++ X :: rest)
        = lit "Unexpected token "
            ++ rendered_token X0 (toString16 X0) ++ rest0).
    { intros Hq. exists X, rest. now apply TokenFacts.enhance_bare. }
    destruct (N.eqb_spec X 39) as [->|Hne];
      [|apply Hbare; intros E; contradiction].
    destruct rest as [|Y [|q rest']];
      try (apply Hbare; intros _ Y' r E; discriminate).
    destruct (is_dot Y) eqn:HY;
      [|apply Hbare; intros _ Y' r E; congruence].
    destruct (N.eqb_spec q 39) as [->|Hq];
      [|apply Hbare; intros _ Y' r E; congruence].
    exists Y, rest'. now apply TokenFacts.enhance_quoted.
Qed.

(** The enhancer on a message it has enhanced: the opening double quote is
    the token now. *)
Lemma enhance_enhanced (X : char16) (h rest : jsstring) :
  addCodePointToUnexpectedToken
    (lit "Unexpected token " ++ rendered_token X h ++ rest)
  = lit "Unexpected token " ++ rendered_token 34%N (lit "22")
      ++ X :: 34%N :: lit "(\u{" ++ h ++ lit "})" ++ rest.
Proof.
  unfold rendered_token at 1. cbn [app].
  rewrite TokenFacts.enhance_bare; [| reflexivity | discriminate].
  replace (toString16 34) with (lit "22") by (vm_compute; reflexivity).
  now rewrite <- !app_assoc.
Qed.

(** X10: the enhancer is idempotent only where it does nothing: a message it
    has changed is changed again by a second pass, which takes the double
    quote it wrote for the unexpected token and makes the message 10 code
    units longer. *)
Theorem enhance_twice (message : jsstring) :
  addCodePointToUnexpectedToken message <> message ->
  length
    (addCodePointToUnexpectedToken (addCodePointToUnexpectedToken message))
  = (length (addCodePointToUnexpectedToken message) + 10)%nat /\
  addCodePointToUnexpectedToken (addCodePointToUnexpectedToken message)
  <> addCodePointToUnexpectedToken message.
Proof.
  intros Hch.
  destruct (enhance_classification message) as [E | (X & rest & E)];
    [contradiction|].
  assert (Hlen :
    length
      (addCodePointToUnexpectedToken
         (addCodePointToUnexpectedToken message))
    = (length (addCodePointToUnexpectedToken message) + 10)%nat).
  { rewrite E, enhance_enhanced. unfold rendered_token.
    rewrite !length_app. cbn [length lit map list_ascii_of_string].
    rewrite !length_app. cbn [length]. lia. }
  split; [exact Hlen|]. intros Eq. rewrite Eq in Hlen. lia.
Qed.

(** ** Further properties of [getCodePoint] *)

Lemma hex_value_from_lower (s : jsstring) :
  forall a v, hex_value_from a s = Some v ->
              (a * 16 ^ N.of_nat (length s) <= v)%N.
Proof.
  induction s as [|c s IH]; intros a v H; cbn [hex_value_from] in H.
  - injection H as <-. cbn [length]. change (16 ^ N.of_nat 0)%N with 1%N.
    lia.
  - destruct (hex_digit_value c) as [d|]; [|discriminate].
    apply IH in H. cbn [length].
    rewrite Nat2N.inj_succ, N.pow_succ_r'. nia.
Qed.

Lemma hex_digit_value_nonzero (c : char16) (d : N) :
  hex_digit_value c = Some d -> c <> 48%N -> (1 <= d)%N.
Proof.
  unfold hex_digit_value. intros H Hc.
  destruct ((48 <=? c) && (c <=? 57))%N eqn:E1.
  - injection H as <-. apply andb_prop in E1 as [E1 _].
    apply N.leb_le in E1. lia.
  - destruct ((97 <=? c) && (c <=? 102))%N eqn:E2; [|discriminate].
    injection H as <-. apply andb_prop in E2 as [E2 _].
    apply N.leb_le in E2. lia.
Qed.

(** A numeral without padding is no longer than its value needs. *)
Lemma unpadded_hex_length (h : jsstring) (n : N) (k : nat) :
  lowercase_unpadded_hex h n -> (n < 16 ^ N.of_nat (S k))%N ->
  (1 <= length h <= S k)%nat.
Proof.
  intros (Hne & Hv & Hz) Hn. destruct h as [|c t]; [contradiction|].
  cbn [length]. split; [lia|].
  destruct t as [|c2 t]; [cbn [length]; lia|].
  remember (c2 :: t) as t' eqn:Et. cbn [hex_value_from] in Hv.
  destruct (hex_digit_value c) as [d|] eqn:Hd; [|discriminate].
  assert (Hc : c <> 48%N).
  { intros ->. specialize (Hz _ eq_refl). congruence. }
  pose proof (hex_digit_value_nonzero Hd Hc) as Hd1.
  apply hex_value_from_lower in Hv.
  assert (Hlt : (16 ^ N.of_nat (length t') < 16 ^ N.of_nat (S k))%N)
    by nia.
  apply N.pow_lt_mono_r_iff in Hlt; lia.
Qed.

(** X11: [getCodePoint] on a string of 16-bit code units writes "\u{", one
    to six lowercase hexadecimal digits without padding and "}"; the digits
    are the numeral of a code point that is at most U+10FFFF: 0 for the empty
    string, and beyond U+FFFF exactly when the string starts with a high
    surrogate followed by a low surrogate, which count as one code point. *)
Theorem getCodePoint_well_formed (character : jsstring) :
  Forall (fun c => (c < 65536)%N) character ->
  exists h n,
    getCodePoint character = lit "\u{" ++ h ++ lit "}" /\
    lowercase_unpadded_hex h n /\
    (1 <= length h <= 6)%nat /\
    (n <= 1114111)%N /\
    (character = [] -> n = 0%N) /\
    ((65536 <= n)%N <->
     exists hi lo t,
       character = hi :: lo :: t /\
       (55296 <= hi <= 56319)%N /\ (56320 <= lo <= 57343)%N).
Proof.
  intros Hw. unfold getCodePoint.
  set (n := match codePointAt character 0 with
            | Some cp => cp
            | None => 0%N
            end).
  exists (toString16 n), n.
  assert (Hn :
    (n <= 1114111)%N /\ (character = [] -> n = 0%N) /\
    ((65536 <= n)%N <->
     exists hi lo t,
       character = hi :: lo :: t /\
       (55296 <= hi <= 56319)%N /\ (56320 <= lo <= 57343)%N)).
  { subst n. unfold codePointAt. cbn [skipn].
    destruct character as [|hi rest].
    - repeat split; try lia.
      intros (hi & lo & t & E & _). discriminate.
    - inversion Hw as [|? ? Hhi Hrest]; subst.
      destruct ((hi <? 55296) || (56319 <? hi))%N eqn:E1.
      + apply orb_prop in E1.
        repeat split; try lia; try discriminate.
        intros (hi' & lo & t & E & Hr & _). injection E as <- _.
        destruct E1 as [E1|E1]; apply N.ltb_lt in E1; lia.
      + apply orb_false_elim in E1 as [E1 E2].
        apply N.ltb_ge in E1, E2.
        destruct rest as [|lo t].
        * repeat split; try lia; try discriminate.
          intros (hi' & lo & t & E & _). discriminate.
        * inversion Hrest as [|? ? Hlo _]; subst.
          destruct ((lo <? 56320) || (57343 <? lo))%N eqn:E3.
          -- apply orb_prop in E3.
             repeat split; try lia; try discriminate.
             intros (hi' & lo' & t' & E & _ & Hr). injection E as _ <- _.
             destruct E3 as [E3|E3]; apply N.ltb_lt in E3; lia.
          -- apply orb_false_elim in E3 as [E3 E4].
             apply N.ltb_ge in E3, E4.
             repeat split; try lia; try discriminate.
             intros _. exists hi, lo, t. repeat split; lia. }
  destruct Hn as (Hmax & Hempty & Hpair).
  pose proof (HexFacts.toString16_spec n) as Hh.
  repeat split; try apply Hh; try assumption; try apply Hpair.
  - apply (unpadded_hex_length (k := 5) Hh).
    change (16 ^ N.of_nat 6)%N with 16777216%N. lia.
  - apply (unpadded_hex_length (k := 5) Hh).
    change (16 ^ N.of_nat 6)%N with 16777216%N. lia.
Qed.

(** ** When there is no location *)

Section NoLocation.

Variables ReviverCall ErrorObject NonError : Type.
Variable indexToPosition :
  jsstring -> number -> bool ->
  completion (foreign ErrorObject NonError) LineColumnPosition.

(** X12: [getErrorLocation] reports no location, having called nothing,
    exactly for the messages of neither shape: a message that ends with an
    offset makes it call the converter, and one that ends with a line and a
    column makes it return that position. *)
Theorem getErrorLocation_none_iff (text message : jsstring) :
  getErrorLocation (ReviverCall := ReviverCall) indexToPosition
    text message = ([], Normal None)
  <-> no_location_shape message.
Proof.
  split.
  - intros H. split.
    + intros offset Ho.
      rewrite (@getErrorLocation_of_offset ReviverCall _ _ indexToPosition
                 text _ _ Ho) in H.
      destruct (strict_equal _ _);
        unfold call_indexToPosition, bind, ret in H;
        destruct (indexToPosition text _ true); discriminate.
    + intros offset l c Hs.
      rewrite (@getErrorLocation_of_line_column ReviverCall _ _
                 indexToPosition text _ _ _ _ Hs) in H.
      discriminate.
  - intros H.
    now rewrite (@getErrorLocation_of_other ReviverCall _ _
                   indexToPosition text _ H).
Qed.

End NoLocation.

(** ** The further properties on the sample collaborators *)

Lemma getErrorLocation_index_range_sample :
  lit "[1," = lit "[1," /\
  (Int 2 = Infinity \/
   exists z, Int 2 = Int z /\ (-1 <= z)%Z /\
             (z = (-1)%Z -> lit "[1," = [])).
Proof.
  apply (@getErrorLocation_index_range nat jsstring nat
           Sample.indexToPosition (lit "[1,")
           (lit "Unexpected end of input in JSON at position 3")
           (lit "[1,") (Int 2)).
  vm_compute. left. reflexivity.
Defined.

Lemma parseJson_converter_failure_sample :
  parseJson Sample.error_message Sample.JSON_parse Strict.indexToPosition
    Sample.codeFrameColumns (lit "[") None None
  = ([GetErrorLocationCalled (lit "[")
        (lit "Unexpected token ] in JSON at position 3");
      IndexToPositionCalled (lit "[") (Int 3)],
     Throw (ForeignValue (ErrorValue (lit "Index out of bounds")))).
Proof.
  assert (Hne : lit "[" <> []) by discriminate.
  assert (Hlen : (js_length (lit "[") <= 9007199254740991)%Z)
    by (vm_compute; discriminate).
  assert (Hs : offset_shape
                 (Sample.error_message
                    (lit "Unexpected token ] in JSON at position 3"))
                 (lit "3")).
  { split; [split; [discriminate | reflexivity]|].
    exists (lit "Unexpected token ] "). reflexivity. }
  assert (Hn : numeral (lit "3") 3).
  { exists (Decimal.D3 Decimal.Nil). repeat split. discriminate. }
  destruct (@parseJson_converter_failure unit unit nat jsstring nat
              Sample.error_message Sample.JSON_parse Strict.indexToPosition
              Sample.codeFrameColumns (lit "[") None None []
              (lit "Unexpected token ] in JSON at position 3") (lit "3")
              3%N Hne Hlen eq_refl Hs Hn) as (index & Hi & _ & Hrun).
  rewrite Hi in Hrun by (vm_compute; discriminate).
  apply (Hrun (ErrorValue (lit "Index out of bounds"))). reflexivity.
Defined.

Lemma parseJson_line_column_diagnostic_sample :
  parseJson Sample.error_message Strict.JSON_parse Strict.indexToPosition
    Sample.codeFrameColumns (lit "[1,]") None (Some (lit "a.json"))
  = ([GetErrorLocationCalled (lit "[1,]")
        (lit "Unexpected token ] in JSON at position 3 (line 1 column 4)");
      JSONErrorConstructed
        (lit "Unexpected token " ++ [34%N; 93%N; 34%N]
           ++ lit "(\u{5d}) in JSON at position 3 (line 1 column 4)")
        (lit "[1,]")
        (Some {| line := Int 1; column := Int 4 |})],
     Throw (JSONErrorValue
              {| name := lit "JSONError";
                 fileName := Some (lit "a.json");
                 codeFrame := Some (lit "> [1,]");
                 rawCodeFrame := Some (lit "[1,]");
                 base_message :=
                   lit "Unexpected token " ++ [34%N; 93%N; 34%N]
                     ++ lit "(\u{5d}) in JSON at position 3 (line 1 column 4)" |})).
Proof.
  assert (Hne : lit "[1,]" <> []) by discriminate.
  assert (Hs : line_column_shape
                 (Sample.error_message
                    (lit "Unexpected token ] in JSON at position 3 (line 1 column 4)"))
                 (lit "3") (lit "1") (lit "4")).
  { repeat split; try discriminate.
    exists (lit "Unexpected token ] "). reflexivity. }
  assert (Hl : numeral (lit "1") 1).
  { exists (Decimal.D1 Decimal.Nil). repeat split. discriminate. }
  assert (Hc : numeral (lit "4") 4).
  { exists (Decimal.D4 Decimal.Nil). repeat split. discriminate. }
  assert (Hbl : (Z.of_N 1 <= 9007199254740992)%Z)
    by (vm_compute; discriminate).
  assert (Hbc : (Z.of_N 4 <= 9007199254740992)%Z)
    by (vm_compute; discriminate).
  pose proof (@parseJson_line_column_diagnostic unit unit nat jsstring nat
                Sample.error_message Strict.JSON_parse Strict.indexToPosition
                Sample.codeFrameColumns (lit "[1,]") None
                (Some (lit "a.json")) []
                (lit "Unexpected token ] in JSON at position 3 (line 1 column 4)")
                (lit "3") (lit "1") (lit "4") 1%N 4%N
                Hne eq_refl Hs Hl Hc Hbl Hbc) as Hrun.
  cbv zeta in Hrun. rewrite Hrun. vm_compute. reflexivity.
Defined.

Lemma getErrorLocation_reads_the_end_sample :
  getErrorLocation (ReviverCall := nat) Sample.indexToPosition (lit "[1,]")
    (lit "Bad value in JSON at position 1: "
       ++ lit "Unexpected token ] in JSON at position 3")
  = getErrorLocation (ReviverCall := nat) Sample.indexToPosition
      (lit "[1,]") (lit "Unexpected token ] in JSON at position 3").
Proof.
  apply (@getErrorLocation_reads_the_end nat jsstring nat
           Sample.indexToPosition (lit "[1,]")
           (lit "Bad value in JSON at position 1: ")
           (lit "Unexpected token ] in JSON at position 3")).
  left. exists (lit "3"). split; [split; [discriminate | reflexivity]|].
  exists (lit "Unexpected token ] "). reflexivity.
Defined.

Lemma enhanced_message_keeps_location_sample :
  getErrorLocation (ReviverCall := nat) Sample.indexToPosition (lit "[1,]")
    (addCodePointToUnexpectedToken
       (lit "Unexpected token " ++ 39%N :: 93%N :: 39%N
          :: lit " in JSON at position 3"))
  = getErrorLocation (ReviverCall := nat) Sample.indexToPosition
      (lit "[1,]")
      (lit "Unexpected token " ++ 39%N :: 93%N :: 39%N
         :: lit " in JSON at position 3") /\
  ((93%N = 39%N -> forall Y rest',
      lit " in JSON at position 3" = Y :: 39%N :: rest' ->
      is_line_terminator Y = true) ->
   getErrorLocation (ReviverCall := nat) Sample.indexToPosition (lit "[1,]")
     (addCodePointToUnexpectedToken
        (lit "Unexpected token " ++ 93%N :: lit " in JSON at position 3"))
   = getErrorLocation (ReviverCall := nat) Sample.indexToPosition
       (lit "[1,]")
       (lit "Unexpected token " ++ 93%N :: lit " in JSON at position 3")).
Proof.
  apply (@enhanced_message_keeps_location nat jsstring nat
           Sample.indexToPosition (lit "[1,]")
           (lit " in JSON at position 3") 93%N).
  - reflexivity.
  - left. exists (lit "3"). split; [split; [discriminate | reflexivity]|].
    exists (lit " "). reflexivity.
Defined.

Lemma parseJson_diagnostic_invariant_sample :
  let jsonError :=
    {| name := lit "JSONError"; fileName := Some (lit "a.json");
       codeFrame := Some (lit "> [1,]"); rawCodeFrame := Some (lit "[1,]");
       base_message :=
         lit "Unexpected token " ++ [34%N; 93%N; 34%N]
           ++ lit "(\u{5d}) in JSON at position 3" |} in
  (exists calls e,
     Sample.JSON_parse (lit "[1,]") None = (calls, Throw (ErrorValue e)) /\
     base_message jsonError
     = addCodePointToUnexpectedToken (Sample.error_message e)) /\
  name jsonError = lit "JSONError" /\
  fileName jsonError = Some (lit "a.json") /\
  ((codeFrame jsonError = None /\ rawCodeFrame jsonError = None) \/
   (lit "[1,]" <> [] /\
    exists location,
      codeFrame jsonError
      = Some (Sample.codeFrameColumns (lit "[1,]") location true) /\
      rawCodeFrame jsonError
      = Some (Sample.codeFrameColumns (lit "[1,]") location false))).
Proof.
  apply (@parseJson_diagnostic_invariant unit unit nat jsstring nat
           Sample.error_message Sample.JSON_parse Sample.indexToPosition
           Sample.codeFrameColumns (lit "[1,]") None (Some (lit "a.json"))
           {| name := lit "JSONError"; fileName := Some (lit "a.json");
              codeFrame := Some (lit "> [1,]");
              rawCodeFrame := Some (lit "[1,]");
              base_message :=
                lit "Unexpected token " ++ [34%N; 93%N; 34%N]
                  ++ lit "(\u{5d}) in JSON at position 3" |}).
  vm_compute. reflexivity.
Defined.

Lemma enhance_twice_sample :
  length
    (addCodePointToUnexpectedToken
       (addCodePointToUnexpectedToken
          (lit "Unexpected token } in JSON at position 8")))
  = (length
       (addCodePointToUnexpectedToken
          (lit "Unexpected token } in JSON at position 8")) + 10)%nat /\
  addCodePointToUnexpectedToken
    (addCodePointToUnexpectedToken
       (lit "Unexpected token } in JSON at position 8"))
  <> addCodePointToUnexpectedToken
       (lit "Unexpected token } in JSON at position 8").
Proof.
  apply (@enhance_twice (lit "Unexpected token } in JSON at position 8")).
  vm_compute. discriminate.
Defined.

Lemma getCodePoint_well_formed_sample :
  exists h n,
    getCodePoint [55357%N; 56832%N] = lit "\u{" ++ h ++ lit "}" /\
    lowercase_unpadded_hex h n /\
    (1 <= length h <= 6)%nat /\
    (n <= 1114111)%N /\
    ([55357%N; 56832%N] = [] -> n = 0%N) /\
    ((65536 <= n)%N <->
     exists hi lo t,
       [55357%N; 56832%N] = hi :: lo :: t /\
       (55296 <= hi <= 56319)%N /\ (56320 <= lo <= 57343)%N).
Proof.
  apply (@getCodePoint_well_formed [55357%N; 56832%N]).
  repeat constructor.
Defined.
